(** * LeadSync: lead store, repository and automation scheduler

    A shallow embedding of the lead-lifecycle core of the two source files

      - [src/index.tsx]          (object [MockBackend] and the [App] automation
                                  effect), embedded in module [Index];
      - [src/unnamed/part_000]   (object [API]), embedded in module [Part0].

    Both files keep the whole lead collection as one JSON text in one
    [localStorage] slot and read, change and write it back on every call. *)

From Stdlib Require Import ZArith Lia DecimalString.
From stdpp Require Import base option list strings gmap.

Local Open Scope Z_scope.

(** ** Types shared by the two files *)

(** [type Platform = 'Instagram' | 'Facebook'] *)
Inductive Platform := Instagram | Facebook.

(** [type LeadStatus = 'New' | 'Contacted' | 'Converted' | 'Lost' | 'Processing'] *)
Inductive LeadStatus := New | Contacted | Converted | Lost | Processing.

#[global] Instance Platform_eq_dec : EqDecision Platform.
Proof. solve_decision. Defined.

#[global] Instance LeadStatus_eq_dec : EqDecision LeadStatus.
Proof. solve_decision. Defined.

(** An instant is what [new Date()] reads: milliseconds since the epoch.  The
    source stores its [toISOString()] rendering, which is ordered the way the
    instants are; the embedding keeps the instant itself. *)
Definition Instant := Z.

(** ** Exceptions *)

(** The only exception the modelled code can raise is the [SyntaxError] of
    [JSON.parse]; nothing in either file catches it. *)
Inductive Exn := SyntaxError.

Inductive Res (A : Type) :=
| Ok (a : A)
| Throw (e : Exn).

Arguments Ok {A} a.
Arguments Throw {A} e.

#[global] Instance Res_ret : MRet Res := λ A a, Ok a.

#[global] Instance Res_bind : MBind Res := λ A B k m,
  match m with
  | Ok a => k a
  | Throw e => Throw e
  end.

(** ** The browser's [localStorage] and [JSON] *)

(** A stored text is kept by what [JSON.parse] makes of it: the empty text,
    the text [JSON.stringify] wrote for a collection, or a text that
    [JSON.parse] rejects. *)
Inductive Text (L : Type) :=
| Blank
| Json (leads : list L)
| Garbled (raw : string).

Arguments Blank {L}.
Arguments Json {L} leads.
Arguments Garbled {L} raw.

Section LocalStorage.
Context {L : Type}.

(** [localStorage.getItem(key)]: [None] is JavaScript's [null]. *)
Definition getItem (key : string) (ls : gmap string (Text L)) : option (Text L) :=
  ls !! key.

(** [localStorage.setItem(key, value)] *)
Definition setItem (key : string) (value : Text L) (ls : gmap string (Text L))
  : gmap string (Text L) :=
  <[key := value]> ls.

(** Truthiness of a string: only the empty one is falsy. *)
Definition truthy (t : Text L) : bool :=
  match t with
  | Blank => false
  | _ => true
  end.

Definition JSON_stringify (leads : list L) : Text L := Json leads.

Definition JSON_parse (t : Text L) : Res (list L) :=
  match t with
  | Json leads => Ok leads
  | Blank => Throw SyntaxError
  | Garbled _ => Throw SyntaxError
  end.

(** [saved ? JSON.parse(saved) : []], the body of both [getLeads]. *)
Definition load (key : string) (ls : gmap string (Text L)) : Res (list L) :=
  match getItem key ls with
  | Some saved => if truthy saved then JSON_parse saved else Ok []
  | None => Ok []
  end.

(** [localStorage.setItem(key, JSON.stringify(leads))], the body of both
    [saveLeads]. *)
Definition save (key : string) (leads : list L) (ls : gmap string (Text L))
  : gmap string (Text L) :=
  setItem key (JSON_stringify leads) ls.
End LocalStorage.

(** JavaScript's [a || b] on an optional string: [b] when [a] is [undefined]
    or empty. *)
Definition or_str (a : option string) (b : string) : string :=
  match a with
  | Some s => if decide (s = "") then b else s
  | None => b
  end.

(** [a || b] where [a], when present, is a non-empty enum tag. *)
Definition or_tag {A} (a : option A) (b : A) : A :=
  match a with
  | Some x => x
  | None => b
  end.

(** One own property of an object spread [{ ...base, ...over }]. *)
Definition spread {A} (over : option A) (base : A) : A :=
  match over with
  | Some x => x
  | None => base
  end.

(** The same for a property that [base] may lack. *)
Definition spread_opt {A} (over : option A) (base : option A) : option A :=
  match over with
  | Some x => Some x
  | None => base
  end.

(** What the two calls of [Math.random()] in a create give: the token
    [Math.random().toString(36).substr(2, 9)] and the number
    [Math.floor(Math.random() * 100)]. *)
Record Entropy := {
  token : string;
  serial : nat
}.

(** ** [src/unnamed/part_000]: the [API] object *)

Module Part0.

Record Lead := {
  id : string;
  username : string;
  full_name : string;
  email : string;
  phone : string;
  source_platform : Platform;
  captured_from : string;
  captured_content : string;
  timestamp : Instant;
  status : LeadStatus;
  last_contacted : option Instant;
  notes : option string
}.

(** [Partial<Lead>]: [None] is an omitted key. *)
Record PartialLead := {
  p_id : option string;
  p_username : option string;
  p_full_name : option string;
  p_email : option string;
  p_phone : option string;
  p_source_platform : option Platform;
  p_captured_from : option string;
  p_captured_content : option string;
  p_timestamp : option Instant;
  p_status : option LeadStatus;
  p_last_contacted : option Instant;
  p_notes : option string
}.

(** [{}] *)
Definition empty_partial : PartialLead :=
  {| p_id := None; p_username := None; p_full_name := None; p_email := None;
     p_phone := None; p_source_platform := None; p_captured_from := None;
     p_captured_content := None; p_timestamp := None; p_status := None;
     p_last_contacted := None; p_notes := None |}.

Definition STORAGE_KEY : string := "leadflow_leads_v2".

Module API.

Definition getLeads (ls : gmap string (Text Lead)) : Res (list Lead) :=
  load STORAGE_KEY ls.

Definition saveLeads (leads : list Lead) (ls : gmap string (Text Lead))
  : gmap string (Text Lead) :=
  save STORAGE_KEY leads ls.

(** [deleteLead]: keep the leads whose id differs, save, return them. *)
Definition deleteLead (i : string) (ls : gmap string (Text Lead))
  : Res (list Lead * gmap string (Text Lead)) :=
  all ← getLeads ls;
  let leads := filter (λ l, id l ≠ i) all in
  Ok (leads, saveLeads leads ls).

(** [updateLead]: put [updated] wherever the id matches, save, return. *)
Definition updateLead (updated : Lead) (ls : gmap string (Text Lead))
  : Res (list Lead * gmap string (Text Lead)) :=
  all ← getLeads ls;
  let leads := (λ l, if decide (id l = id updated) then updated else l) <$> all in
  Ok (leads, saveLeads leads ls).

(** The object literal of [addLead] before its final [...lead]. *)
Definition defaults (lead : PartialLead) (rnd : Entropy) (now : Instant) : Lead :=
  {| id := token rnd;
     username := or_str (p_username lead)
                   ("user_" +:+ NilZero.string_of_uint (Nat.to_uint (serial rnd)));
     full_name := or_str (p_full_name lead) "New Prospect";
     email := or_str (p_email lead) "";
     phone := or_str (p_phone lead) "";
     source_platform := or_tag (p_source_platform lead) Instagram;
     captured_from := or_str (p_captured_from lead) "Direct Message";
     captured_content := or_str (p_captured_content lead) "Interested in your product!";
     timestamp := now;
     status := New;
     last_contacted := None;
     notes := Some "" |}.

(** [{ ...base, ...lead }]: every key [lead] has wins. *)
Definition newLead (lead : PartialLead) (rnd : Entropy) (now : Instant) : Lead :=
  let base := defaults lead rnd now in
  {| id := spread (p_id lead) (id base);
     username := spread (p_username lead) (username base);
     full_name := spread (p_full_name lead) (full_name base);
     email := spread (p_email lead) (email base);
     phone := spread (p_phone lead) (phone base);
     source_platform := spread (p_source_platform lead) (source_platform base);
     captured_from := spread (p_captured_from lead) (captured_from base);
     captured_content := spread (p_captured_content lead) (captured_content base);
     timestamp := spread (p_timestamp lead) (timestamp base);
     status := spread (p_status lead) (status base);
     last_contacted := spread_opt (p_last_contacted lead) (last_contacted base);
     notes := spread_opt (p_notes lead) (notes base) |}.

(** [addLead]: build the record, [unshift] it, save, return the collection. *)
Definition addLead (lead : PartialLead) (rnd : Entropy) (now : Instant)
    (ls : gmap string (Text Lead))
  : Res (list Lead * gmap string (Text Lead)) :=
  all ← getLeads ls;
  let leads := newLead lead rnd now :: all in
  Ok (leads, saveLeads leads ls).

End API.

End Part0.

(** ** [src/index.tsx]: the [MockBackend] object and the [App] automation *)

Module Index.

Record Lead := {
  id : string;
  username : string;
  full_name : string;
  profile_url : string;
  email : string;
  phone : string;
  source_platform : Platform;
  captured_from : string;
  captured_content : string;
  timestamp : Instant;
  status : LeadStatus;
  last_contacted : option Instant
}.

(** [Partial<Lead>]: [None] is an omitted key. *)
Record PartialLead := {
  p_id : option string;
  p_username : option string;
  p_full_name : option string;
  p_profile_url : option string;
  p_email : option string;
  p_phone : option string;
  p_source_platform : option Platform;
  p_captured_from : option string;
  p_captured_content : option string;
  p_timestamp : option Instant;
  p_status : option LeadStatus;
  p_last_contacted : option Instant
}.

(** [{}] *)
Definition empty_partial : PartialLead :=
  {| p_id := None; p_username := None; p_full_name := None;
     p_profile_url := None; p_email := None; p_phone := None;
     p_source_platform := None; p_captured_from := None;
     p_captured_content := None; p_timestamp := None; p_status := None;
     p_last_contacted := None |}.

(** [l.status = s] *)
Definition set_status (s : LeadStatus) (l : Lead) : Lead :=
  {| id := id l; username := username l; full_name := full_name l;
     profile_url := profile_url l; email := email l; phone := phone l;
     source_platform := source_platform l; captured_from := captured_from l;
     captured_content := captured_content l; timestamp := timestamp l;
     status := s; last_contacted := last_contacted l |}.

(** [l.last_contacted = t] *)
Definition set_last_contacted (t : Instant) (l : Lead) : Lead :=
  {| id := id l; username := username l; full_name := full_name l;
     profile_url := profile_url l; email := email l; phone := phone l;
     source_platform := source_platform l; captured_from := captured_from l;
     captured_content := captured_content l; timestamp := timestamp l;
     status := status l; last_contacted := Some t |}.

Definition STORAGE_KEY : string := "leadflow_leads_db".

Module MockBackend.

Definition getLeads (ls : gmap string (Text Lead)) : Res (list Lead) :=
  load STORAGE_KEY ls.

Definition saveLeads (leads : list Lead) (ls : gmap string (Text Lead))
  : gmap string (Text Lead) :=
  save STORAGE_KEY leads ls.

(** A template literal prints an [undefined] hole as the word. *)
Definition interpolate (a : option string) : string :=
  match a with
  | Some s => s
  | None => "undefined"
  end.

(** The object literal of [captureLead] before its final [...leadData]. *)
Definition defaults (leadData : PartialLead) (rnd : Entropy) (now : Instant) : Lead :=
  {| id := token rnd;
     username := or_str (p_username leadData) "unknown_user";
     full_name := or_str (p_full_name leadData) "Prospect";
     profile_url := or_str (p_profile_url leadData) "#";
     email := or_str (p_email leadData)
                (interpolate (p_username leadData) +:+ "@example.com");
     phone := or_str (p_phone leadData) "N/A";
     source_platform := or_tag (p_source_platform leadData) Instagram;
     captured_from := or_str (p_captured_from leadData) "Comment";
     captured_content := or_str (p_captured_content leadData) "Interested in your product!";
     timestamp := now;
     status := New;
     last_contacted := None |}.

(** [{ ...base, ...leadData }] *)
Definition newLead (leadData : PartialLead) (rnd : Entropy) (now : Instant) : Lead :=
  let base := defaults leadData rnd now in
  {| id := spread (p_id leadData) (id base);
     username := spread (p_username leadData) (username base);
     full_name := spread (p_full_name leadData) (full_name base);
     profile_url := spread (p_profile_url leadData) (profile_url base);
     email := spread (p_email leadData) (email base);
     phone := spread (p_phone leadData) (phone base);
     source_platform := spread (p_source_platform leadData) (source_platform base);
     captured_from := spread (p_captured_from leadData) (captured_from base);
     captured_content := spread (p_captured_content leadData) (captured_content base);
     timestamp := spread (p_timestamp leadData) (timestamp base);
     status := spread (p_status leadData) (status base);
     last_contacted := spread_opt (p_last_contacted leadData) (last_contacted base) |}.

(** [captureLead]: build the record, [unshift] it, save, return the record. *)
Definition captureLead (leadData : PartialLead) (rnd : Entropy) (now : Instant)
    (ls : gmap string (Text Lead))
  : Res (Lead * gmap string (Text Lead)) :=
  leads ← getLeads ls;
  let newLead := newLead leadData rnd now in
  Ok (newLead, saveLeads (newLead :: leads) ls).

(** The two assignments of [updateStatus] on [leads[index]]. *)
Definition touch (s : LeadStatus) (now : Instant) (l : Lead) : Lead :=
  let l1 := set_status s l in
  if decide (s = Contacted) then set_last_contacted now l1 else l1.

(** [updateStatus]: [findIndex] by id; when found, assign, save and return
    the record, otherwise return [null] and leave the slot alone. *)
Definition updateStatus (i : string) (s : LeadStatus) (now : Instant)
    (ls : gmap string (Text Lead))
  : Res (option Lead * gmap string (Text Lead)) :=
  leads ← getLeads ls;
  match list_find (λ l, id l = i) leads with
  | Some (index, l) =>
      let l' := touch s now l in
      Ok (Some l', saveLeads (<[index := l']> leads) ls)
  | None => Ok (None, ls)
  end.

End MockBackend.

(** *** The [App] component: state, timers and callbacks *)

(** A pending [setTimeout] of the automation effect: the handle
    [setTimeout] returned, the instant it is due and the id its closure reads
    from [leadToAutomate] (no code assigns a lead's [id], so reading it when
    the closure runs gives what it was when the closure was made). *)
Record Timeout := {
  handle : nat;
  due : Instant;
  target : string
}.

Record App := {
  leads : list Lead;                  (* useState<Lead[]>([]) *)
  isAutomating : bool;                (* useState(true) *)
  lastSync : Instant;                 (* useState(new Date()) *)
  interval : option Instant;          (* the live setInterval: its next due instant *)
  timeouts : list Timeout;            (* pending automation setTimeouts *)
  next_handle : nat;                  (* the next timer handle *)
  clock : Instant;                    (* what new Date() reads *)
  storage : gmap string (Text Lead)   (* localStorage *)
}.

(** The updater the interval callback gives to [setLeads]: the first [New]
    lead of the copied array is assigned [Processing], and a timeout for it
    is set 3000 ms ahead; without a [New] lead the state is returned as is. *)
Definition tick (a : App) : App :=
  match list_find (λ l, status l = New) (leads a) with
  | Some (index, leadToAutomate) =>
      {| leads := <[index := set_status Processing leadToAutomate]> (leads a);
         isAutomating := isAutomating a;
         lastSync := lastSync a;
         interval := interval a;
         timeouts := timeouts a ++
                     [{| handle := next_handle a;
                         due := clock a + 3000;
                         target := id leadToAutomate |}];
         next_handle := S (next_handle a);
         clock := clock a;
         storage := storage a |}
  | None => a
  end.

(** The closure given to [setTimeout]: [updateStatus(id, 'Contacted')] and,
    when it returned a record, [setLeads(getLeads())] and
    [setLastSync(new Date())]. *)
Definition onTimeout (i : string) (a : App) : Res App :=
  '(updated, ls) ← MockBackend.updateStatus i Contacted (clock a) (storage a);
  match updated with
  | Some _ =>
      fresh ← MockBackend.getLeads ls;
      Ok {| leads := fresh; isAutomating := isAutomating a;
            lastSync := clock a; interval := interval a;
            timeouts := timeouts a; next_handle := next_handle a;
            clock := clock a; storage := ls |}
  | None =>
      Ok {| leads := leads a; isAutomating := isAutomating a;
            lastSync := lastSync a; interval := interval a;
            timeouts := timeouts a; next_handle := next_handle a;
            clock := clock a; storage := ls |}
  end.

(** [handleUpdateStatus]: [updateStatus] then [setLeads(getLeads())]. *)
Definition handleUpdateStatus (i : string) (newStatus : LeadStatus) (a : App) : Res App :=
  '(_, ls) ← MockBackend.updateStatus i newStatus (clock a) (storage a);
  fresh ← MockBackend.getLeads ls;
  Ok {| leads := fresh; isAutomating := isAutomating a;
        lastSync := lastSync a; interval := interval a;
        timeouts := timeouts a; next_handle := next_handle a;
        clock := clock a; storage := ls |}.

(** The delayed body of [handleCaptureSimulation]: [captureLead], then
    [setLeads(getLeads())] and [setLastSync(new Date())]. *)
Definition onCapture (leadData : PartialLead) (rnd : Entropy) (a : App) : Res App :=
  '(_, ls) ← MockBackend.captureLead leadData rnd (clock a) (storage a);
  fresh ← MockBackend.getLeads ls;
  Ok {| leads := fresh; isAutomating := isAutomating a;
        lastSync := clock a; interval := interval a;
        timeouts := timeouts a; next_handle := next_handle a;
        clock := clock a; storage := ls |}.

(** [setIsAutomating(!isAutomating)] and the effect it re-runs: the cleanup
    [clearInterval(interval)], then a new [setInterval(..., 8000)] when the
    flag is now on.  No [clearTimeout] exists in the file. *)
Definition toggle (a : App) : App :=
  let on := negb (isAutomating a) in
  {| leads := leads a; isAutomating := on; lastSync := lastSync a;
     interval := if on then Some (clock a + 8000) else None;
     timeouts := timeouts a; next_handle := next_handle a;
     clock := clock a; storage := storage a |}.

(** The clock moves to [now]. *)
Definition at_time (now : Instant) (a : App) : App :=
  {| leads := leads a; isAutomating := isAutomating a; lastSync := lastSync a;
     interval := interval a; timeouts := timeouts a;
     next_handle := next_handle a; clock := now; storage := storage a |}.

(** The interval is re-armed 8000 ms after the instant it was due. *)
Definition rearm (d : Instant) (a : App) : App :=
  {| leads := leads a; isAutomating := isAutomating a; lastSync := lastSync a;
     interval := Some (d + 8000); timeouts := timeouts a;
     next_handle := next_handle a; clock := clock a; storage := storage a |}.

(** The timeout with handle [h] leaves the pending ones. *)
Definition consume (h : nat) (a : App) : App :=
  {| leads := leads a; isAutomating := isAutomating a; lastSync := lastSync a;
     interval := interval a;
     timeouts := filter (λ t, handle t ≠ h) (timeouts a);
     next_handle := next_handle a; clock := clock a; storage := storage a |}.

(** What the event loop may run next. *)
Inductive Event :=
| EvTick                                              (* the interval callback *)
| EvTimeout (h : nat)                                 (* a pending automation timeout *)
| EvUpdateStatus (i : string) (newStatus : LeadStatus) (* a status button *)
| EvCapture (leadData : PartialLead) (rnd : Entropy)  (* a simulated capture *)
| EvToggle.                                           (* the automation switch *)

(** One callback run to completion at instant [now].  Time does not go
    back; a timer does not run before it is due (it may run late); the
    interval callback needs a live interval; a callback that throws has no
    successor state.  A callback throws only over a slot that cannot be
    read, and no state reached from a readable slot has one: what a thrown
    callback leaves (its timer gone from the pending ones) is outside this
    relation. *)
Inductive Step (a : App) (now : Instant) : Event → App → Prop :=
| StepTick d :
    clock a ≤ now →
    interval a = Some d →
    d ≤ now →
    Step a now EvTick (tick (rearm d (at_time now a)))
| StepTimeout t a' :
    clock a ≤ now →
    t ∈ timeouts a →
    due t ≤ now →
    onTimeout (target t) (consume (handle t) (at_time now a)) = Ok a' →
    Step a now (EvTimeout (handle t)) a'
| StepUpdateStatus i s a' :
    clock a ≤ now →
    handleUpdateStatus i s (at_time now a) = Ok a' →
    Step a now (EvUpdateStatus i s) a'
| StepCapture leadData rnd a' :
    clock a ≤ now →
    onCapture leadData rnd (at_time now a) = Ok a' →
    Step a now (EvCapture leadData rnd) a'
| StepToggle :
    clock a ≤ now →
    Step a now EvToggle (toggle (at_time now a)).

(** A run: the callbacks executed one after the other, each with the
    instant at which it ran. *)
Inductive Run : App → list (Instant * Event) → App → Prop :=
| RunNil a : Run a [] a
| RunCons a now ev a' evs a'' :
    Step a now ev a' →
    Run a' evs a'' →
    Run a ((now, ev) :: evs) a''.

(** The state once the mount effect has put the stored collection in the
    component state: nothing is pending and automation is on. *)
Definition mounted (a : App) : Prop :=
  MockBackend.getLeads (storage a) = Ok (leads a) ∧
  timeouts a = [] ∧
  isAutomating a = true ∧
  interval a = Some (clock a + 8000).

(** The states the component can be in. *)
Inductive Reachable : App → Prop :=
| ReachMounted a : mounted a → Reachable a
| ReachStep a now ev a' : Reachable a → Step a now ev a' → Reachable a'.


(** *** Vocabulary of the scheduler statements *)

(** What every state of the component satisfies: the slot holds a
    collection; every id in the component state and every id a pending
    timeout will look for is an id of that collection; the pending handles
    are distinct and older than the next one; the interval is live exactly
    when automation is on. *)
Definition Consistent (a : App) : Prop :=
  (∃ db, MockBackend.getLeads (storage a) = Ok db ∧
         id <$> leads a ⊆ id <$> db ∧
         ∀ t, t ∈ timeouts a → target t ∈ id <$> db) ∧
  (∀ t, t ∈ timeouts a → (handle t < next_handle a)%nat) ∧
  NoDup (handle <$> timeouts a) ∧
  (interval a = None ↔ isAutomating a = false).

(** The run [evs] contains the firing of the timeout with handle [h]. *)
Definition fires (h : nat) (evs : list (Instant * Event)) : Prop :=
  ∃ now, (now, EvTimeout h) ∈ evs.

(** The run [evs] contains a run of the interval callback. *)
Definition ticks (evs : list (Instant * Event)) : Prop :=
  ∃ now, (now, EvTick) ∈ evs.

(** The run [evs] contains a use of the automation switch. *)
Definition toggles (evs : list (Instant * Event)) : Prop :=
  ∃ now, (now, EvToggle) ∈ evs.

(** In state [a] the first lead with id [i] is [Contacted] since instant
    [now], in the slot and in the component state alike. *)
Definition contacted_at (i : string) (now : Instant) (a : App) : Prop :=
  MockBackend.getLeads (storage a) = Ok (leads a) ∧
  ∃ k l, list_find (λ l, id l = i) (leads a) = Some (k, l) ∧
         status l = Contacted ∧
         last_contacted l = Some now.


(** The timeout a tick at instant [now] sets for the lead [l] it selected
    in state [a]. *)
Definition automation_timeout (a : App) (now : Instant) (l : Lead) : Timeout :=
  {| handle := next_handle a; due := now + 3000; target := id l |}.

(** In state [a] the timeout [t] is still pending; once it is due the event
    loop can run it; and whenever it runs, it was due, it leaves the
    pending ones, and its lead is [Contacted] at that instant, saved and
    shown, with the last synchronisation set to that instant. *)
Definition completes (t : Timeout) (a : App) : Prop :=
  t ∈ timeouts a ∧
  (∀ now, clock a ≤ now → due t ≤ now →
          ∃ a', Step a now (EvTimeout (handle t)) a') ∧
  (∀ now a', Step a now (EvTimeout (handle t)) a' →
             due t ≤ now ∧ (t ∉ timeouts a') ∧
             contacted_at (target t) now a' ∧ lastSync a' = now).

End Index.


(** ** Vocabulary of the statements *)

(** *** Sequences of repository operations on [part_000] *)

Module Ops.
Import Part0 Part0.API.

(** One repository call, with everything it reads from its environment. *)
Inductive Op :=
| Create (lead : PartialLead) (rnd : Entropy) (now : Instant)
| Update (updated : Lead)
| Delete (i : string).

(** The call itself; only the slot is kept. *)
Definition perform (op : Op) (ls : gmap string (Text Lead))
  : Res (gmap string (Text Lead)) :=
  match op with
  | Create lead rnd now => '(_, ls') ← addLead lead rnd now ls; Ok ls'
  | Update updated => '(_, ls') ← updateLead updated ls; Ok ls'
  | Delete i => '(_, ls') ← deleteLead i ls; Ok ls'
  end.

Fixpoint perform_all (ops : list Op) (ls : gmap string (Text Lead))
  : Res (gmap string (Text Lead)) :=
  match ops with
  | [] => Ok ls
  | op :: ops => ls' ← perform op ls; perform_all ops ls'
  end.

(** What the specification expects of a sequence: per id, the record last
    written for it.  A create writes its record under the record's id, an
    update writes under an id that is there, a delete forgets the id. *)
Definition record (op : Op) (m : gmap string Lead) : gmap string Lead :=
  match op with
  | Create lead rnd now =>
      let l := newLead lead rnd now in <[id l := l]> m
  | Update updated =>
      match m !! id updated with
      | Some _ => <[id updated := updated]> m
      | None => m
      end
  | Delete i => delete i m
  end.

Fixpoint last_written (ops : list Op) (m : gmap string Lead) : gmap string Lead :=
  match ops with
  | [] => m
  | op :: ops => last_written ops (record op m)
  end.

(** Every create of the sequence yields an id that is not in the collection
    at that point. *)
Fixpoint fresh_ids (ops : list Op) (m : gmap string Lead) : Prop :=
  match ops with
  | [] => True
  | op :: ops =>
      match op with
      | Create lead rnd now => m !! id (newLead lead rnd now) = None
      | _ => True
      end ∧ fresh_ids ops (record op m)
  end.

(** The collection [all] is the map [m] read by id: no id twice, and the
    records of [all] are the entries of [m], each under its own id. *)
Definition holds_exactly (all : list Lead) (m : gmap string Lead) : Prop :=
  NoDup (id <$> all) ∧ ∀ i l, m !! i = Some l ↔ l ∈ all ∧ id l = i.
End Ops.

(** *** Frames *)

(** [l'] is [l] but for its [status] and [last_contacted]. *)
Definition same_but_status (l l' : Index.Lead) : Prop :=
  Index.id l' = Index.id l ∧
  Index.username l' = Index.username l ∧
  Index.full_name l' = Index.full_name l ∧
  Index.profile_url l' = Index.profile_url l ∧
  Index.email l' = Index.email l ∧
  Index.phone l' = Index.phone l ∧
  Index.source_platform l' = Index.source_platform l ∧
  Index.captured_from l' = Index.captured_from l ∧
  Index.captured_content l' = Index.captured_content l ∧
  Index.timestamp l' = Index.timestamp l.

(** *** Sample data *)

Module Samples.

(** The first seed lead of [part_000], as [addLead] builds it. *)
Definition sarah : Part0.Lead :=
  {| Part0.id := "k3x9a7q2m";
     Part0.username := "sconnor";
     Part0.full_name := "Sarah Connor";
     Part0.email := "";
     Part0.phone := "";
     Part0.source_platform := Instagram;
     Part0.captured_from := "Direct Message";
     Part0.captured_content := "Interested in your product!";
     Part0.timestamp := 1000;
     Part0.status := New;
     Part0.last_contacted := None;
     Part0.notes := Some "" |}.

(** [{ ...sarah, status: 'Contacted' }], what the status select sends. *)
Definition sarah_contacted : Part0.Lead :=
  {| Part0.id := Part0.id sarah;
     Part0.username := Part0.username sarah;
     Part0.full_name := Part0.full_name sarah;
     Part0.email := Part0.email sarah;
     Part0.phone := Part0.phone sarah;
     Part0.source_platform := Part0.source_platform sarah;
     Part0.captured_from := Part0.captured_from sarah;
     Part0.captured_content := Part0.captured_content sarah;
     Part0.timestamp := Part0.timestamp sarah;
     Part0.status := Contacted;
     Part0.last_contacted := Part0.last_contacted sarah;
     Part0.notes := Part0.notes sarah |}.

(** [{ ...sarah, timestamp: <another instant> }] *)
Definition sarah_redated : Part0.Lead :=
  {| Part0.id := Part0.id sarah;
     Part0.username := Part0.username sarah;
     Part0.full_name := Part0.full_name sarah;
     Part0.email := Part0.email sarah;
     Part0.phone := Part0.phone sarah;
     Part0.source_platform := Part0.source_platform sarah;
     Part0.captured_from := Part0.captured_from sarah;
     Part0.captured_content := Part0.captured_content sarah;
     Part0.timestamp := 7777;
     Part0.status := Part0.status sarah;
     Part0.last_contacted := Part0.last_contacted sarah;
     Part0.notes := Part0.notes sarah |}.

(** A record whose id no stored lead has. *)
Definition ghost : Part0.Lead :=
  {| Part0.id := "ghost";
     Part0.username := "nobody";
     Part0.full_name := "No Body";
     Part0.email := "";
     Part0.phone := "";
     Part0.source_platform := Facebook;
     Part0.captured_from := "Ad";
     Part0.captured_content := "";
     Part0.timestamp := 5;
     Part0.status := Lost;
     Part0.last_contacted := None;
     Part0.notes := None |}.

(** A slot of [part_000] holding [sarah] alone. *)
Definition slot_sarah : gmap string (Text Part0.Lead) :=
  Part0.API.saveLeads [sarah] ∅.

(** [{ id: 'a' }] and [{ id: 'a', full_name: 'B' }] *)
Definition with_id_a : Part0.PartialLead :=
  {| Part0.p_id := Some "a"; Part0.p_username := None;
     Part0.p_full_name := None; Part0.p_email := None;
     Part0.p_phone := None; Part0.p_source_platform := None;
     Part0.p_captured_from := None; Part0.p_captured_content := None;
     Part0.p_timestamp := None; Part0.p_status := None;
     Part0.p_last_contacted := None; Part0.p_notes := None |}.

Definition with_id_a_named : Part0.PartialLead :=
  {| Part0.p_id := Some "a"; Part0.p_username := None;
     Part0.p_full_name := Some "B"; Part0.p_email := None;
     Part0.p_phone := None; Part0.p_source_platform := None;
     Part0.p_captured_from := None; Part0.p_captured_content := None;
     Part0.p_timestamp := None; Part0.p_status := None;
     Part0.p_last_contacted := None; Part0.p_notes := None |}.

(** [{ id: 'mine', timestamp: <instant 5> }] *)
Definition with_id_and_date : Part0.PartialLead :=
  {| Part0.p_id := Some "mine"; Part0.p_username := None;
     Part0.p_full_name := None; Part0.p_email := None;
     Part0.p_phone := None; Part0.p_source_platform := None;
     Part0.p_captured_from := None; Part0.p_captured_content := None;
     Part0.p_timestamp := Some 5; Part0.p_status := None;
     Part0.p_last_contacted := None; Part0.p_notes := None |}.

Definition dice : Entropy := {| token := "q7w1e5r9t"; serial := 42 |}.
Definition dice' : Entropy := {| token := "z2x6c0v4b"; serial := 7 |}.

End Samples.

Module IndexSamples.
Import Index.

(** The third seed lead of [index.tsx], as [captureLead] builds it. *)
Definition mark : Lead :=
  {| id := "m4r7k0g5u";
     username := "tech_guru";
     full_name := "Mark Miller";
     profile_url := "#";
     email := "tech_guru@example.com";
     phone := "N/A";
     source_platform := Instagram;
     captured_from := "Comment";
     captured_content := "Interested in your product!";
     timestamp := 1000;
     status := New;
     last_contacted := None |}.

(** The fourth seed lead. *)
Definition elena : Lead :=
  {| id := "e1e9n4a2r";
     username := "growth_expert";
     full_name := "Elena Rose";
     profile_url := "#";
     email := "growth_expert@example.com";
     phone := "N/A";
     source_platform := Instagram;
     captured_from := "Ad";
     captured_content := "Interested in your product!";
     timestamp := 1001;
     status := New;
     last_contacted := None |}.

(** [{ username: 'early_bird', timestamp: <instant 9000> }] *)
Definition postdated : PartialLead :=
  {| p_id := None; p_username := Some "early_bird"; p_full_name := None;
     p_profile_url := None; p_email := None; p_phone := None;
     p_source_platform := None; p_captured_from := None;
     p_captured_content := None; p_timestamp := Some 9000;
     p_status := None; p_last_contacted := None |}.

(** A slot of [index.tsx] holding the two [New] seed leads, newest first. *)
Definition slot_seeded : gmap string (Text Lead) :=
  MockBackend.saveLeads [elena; mark] ∅.

(** A slot whose text is not JSON. *)
Definition slot_garbled : gmap string (Text Lead) :=
  {[ STORAGE_KEY := Garbled "{oops" ]}.

(** The component just mounted on [slot_seeded] at instant 2000. *)
Definition app0 : App :=
  {| leads := [elena; mark];
     isAutomating := true;
     lastSync := 2000;
     interval := Some 10000;
     timeouts := [];
     next_handle := 0;
     clock := 2000;
     storage := slot_seeded |}.
End IndexSamples.

Module History.
Import Part0 Ops Samples.

(** Two creates with random ids, an update of the first record, an update of
    an id nobody has, and the deletion of the second record. *)
Definition busy : list Op :=
  [ Create empty_partial dice 1000;
    Create with_id_a_named dice' 2000;
    Update (API.newLead with_id_a_named dice 3000);
    Update ghost;
    Delete "q7w1e5r9t" ].

(** Two creates that are both given the id ['a']. *)
Definition clash : list Op :=
  [ Create with_id_a dice 1000;
    Create with_id_a_named dice' 2000 ].
End History.


(** ** More of JavaScript's strings *)

(** [s.includes(sub)] *)
Definition includes (s sub : string) : bool :=
  match String.index 0 sub s with
  | Some _ => true
  | None => false
  end.

(** A line feed. *)
Definition nl : string := String (Ascii.ascii_of_nat 10) EmptyString.

(** ** More of [src/unnamed/part_000]: the [App] component *)

Module Part0App.
Import Part0.

(** The [type] of a toast. *)
Inductive ToastType := success | error | info.

Record Toast := {
  message : string;
  type : ToastType
}.

(** The component state the handlers below read and set, and the
    [localStorage] they reach through [API]. *)
Record App := {
  leads : list Lead;                    (* useState<Lead[]>([]) *)
  selectedLead : option Lead;           (* useState<Lead | null>(null) *)
  toast : option Toast;                 (* useState<...| null>(null) *)
  isSendingAIReply : bool;              (* useState(false) *)
  storage : gmap string (Text Lead)     (* localStorage *)
}.

Definition setLeads (v : list Lead) (a : App) : App :=
  {| leads := v; selectedLead := selectedLead a; toast := toast a;
     isSendingAIReply := isSendingAIReply a; storage := storage a |}.

Definition setSelectedLead (v : option Lead) (a : App) : App :=
  {| leads := leads a; selectedLead := v; toast := toast a;
     isSendingAIReply := isSendingAIReply a; storage := storage a |}.

Definition showToast (m : string) (t : ToastType) (a : App) : App :=
  {| leads := leads a; selectedLead := selectedLead a;
     toast := Some {| message := m; type := t |};
     isSendingAIReply := isSendingAIReply a; storage := storage a |}.

Definition setIsSendingAIReply (v : bool) (a : App) : App :=
  {| leads := leads a; selectedLead := selectedLead a; toast := toast a;
     isSendingAIReply := v; storage := storage a |}.

(** The slot after a call of [API]. *)
Definition stored (ls : gmap string (Text Lead)) (a : App) : App :=
  {| leads := leads a; selectedLead := selectedLead a; toast := toast a;
     isSendingAIReply := isSendingAIReply a; storage := ls |}.

(** [{ ...l, status: s }] *)
Definition with_status (s : LeadStatus) (l : Lead) : Lead :=
  {| id := id l; username := username l; full_name := full_name l;
     email := email l; phone := phone l; source_platform := source_platform l;
     captured_from := captured_from l; captured_content := captured_content l;
     timestamp := timestamp l; status := s;
     last_contacted := last_contacted l; notes := notes l |}.

(** [{ ...l, notes: n }] *)
Definition with_notes (n : string) (l : Lead) : Lead :=
  {| id := id l; username := username l; full_name := full_name l;
     email := email l; phone := phone l; source_platform := source_platform l;
     captured_from := captured_from l; captured_content := captured_content l;
     timestamp := timestamp l; status := status l;
     last_contacted := last_contacted l; notes := Some n |}.

(** The two seed leads of the mount effect. *)
Definition seed_sarah : PartialLead :=
  {| p_id := None; p_username := Some "sconnor";
     p_full_name := Some "Sarah Connor"; p_email := None; p_phone := None;
     p_source_platform := Some Instagram; p_captured_from := None;
     p_captured_content := None; p_timestamp := None; p_status := Some New;
     p_last_contacted := None; p_notes := None |}.

Definition seed_john : PartialLead :=
  {| p_id := None; p_username := Some "jdoe_88";
     p_full_name := Some "John Doe"; p_email := None; p_phone := None;
     p_source_platform := Some Facebook; p_captured_from := None;
     p_captured_content := None; p_timestamp := None;
     p_status := Some Converted;
     p_last_contacted := None; p_notes := None |}.

(** The mount effect: read the slot; when it holds no lead, add the two
    seed leads and read again; show what was read.  [rnd1], [now1] and
    [rnd2], [now2] are what the two [addLead] draw and read. *)
Definition mountEffect (rnd1 rnd2 : Entropy) (now1 now2 : Instant) (a : App) : Res App :=
  data ← API.getLeads (storage a);
  match data with
  | [] =>
      '(_, ls1) ← API.addLead seed_sarah rnd1 now1 (storage a);
      '(_, ls2) ← API.addLead seed_john rnd2 now2 ls1;
      fresh ← API.getLeads ls2;
      Ok (setLeads fresh (stored ls2 a))
  | _ => Ok (setLeads data a)
  end.

(** How the call of the text generation service ends: it throws, or it
    returns a response whose [text] may be missing or empty. *)
Inductive Generation :=
| GenThrows
| GenText (text : option string).

(** The first, synchronous part of [handleSendAIReply]: nothing without a
    selected lead; otherwise the busy flag is set and the call is awaited
    with the selected lead in the closure. *)
Definition handleSendAIReply_begin (a : App) : option (Lead * App) :=
  match selectedLead a with
  | None => None
  | Some sel => Some (sel, setIsSendingAIReply true a)
  end.

(** The record [handleSendAIReply] writes: the closure's lead, [Contacted],
    with the reply appended to its notes under a line that carries [stamp],
    the [toLocaleString()] of the instant. *)
Definition replied (sel : Lead) (stamp reply : string) : Lead :=
  with_notes
    (or_str (notes sel) "" +:+ nl +:+ nl +:+ "[AI Reply Sent at " +:+ stamp
     +:+ "]:" +:+ nl +:+ reply)
    (with_status Contacted sel).

(** The rest of [handleSendAIReply], run when the awaited call settles, in
    the state the component has then: the [try] body, its [catch], which
    takes every exception, the one of [API.updateLead] included, and its
    [finally]. *)
Definition handleSendAIReply (sel : Lead) (gen : Generation) (stamp : string)
    (a : App) : App :=
  setIsSendingAIReply false
    match gen with
    | GenThrows => showToast "Failed to generate AI reply" error a
    | GenText text =>
        let reply :=
          or_str text
            "Thanks for reaching out! We'd love to help. When are you free for a quick chat?" in
        let updated := replied sel stamp reply in
        let a1 := setSelectedLead (Some updated) a in
        match API.updateLead updated (storage a1) with
        | Ok (all, ls) =>
            showToast ("AI Reply sent to " +:+ full_name sel) success
              (setLeads all (stored ls a1))
        | Throw _ => showToast "Failed to generate AI reply" error a1
        end
    end.

(** The handlers below catch nothing: what they return is the state with the
    updates made before an exception, and the exception if one was thrown. *)

(** The status select of the detail panel, with the lead the panel shows. *)
Definition onStatusChange (sel : Lead) (value : LeadStatus) (a : App)
  : App * option Exn :=
  let updated := with_status value sel in
  let a1 := setSelectedLead (Some updated) a in
  match API.updateLead updated (storage a1) with
  | Ok (all, ls) => (showToast "Lead status updated" info (setLeads all (stored ls a1)), None)
  | Throw e => (a1, Some e)
  end.

(** The notes field of the detail panel. *)
Definition onNotesChange (sel : Lead) (value : string) (a : App)
  : App * option Exn :=
  let updated := with_notes value sel in
  let a1 := setSelectedLead (Some updated) a in
  match API.updateLead updated (storage a1) with
  | Ok (all, ls) => (setLeads all (stored ls a1), None)
  | Throw e => (a1, Some e)
  end.

(** The [Mark as Converted] button of the detail panel. *)
Definition onMarkConverted (sel : Lead) (a : App) : App * option Exn :=
  let updated := with_status Converted sel in
  let a1 := setSelectedLead (Some updated) a in
  match API.updateLead updated (storage a1) with
  | Ok (all, ls) =>
      (showToast "Congratulations! Lead Converted." success
         (setLeads all (stored ls a1)), None)
  | Throw e => (a1, Some e)
  end.

(** [selectedLead?.id === id] *)
Definition selected_is (i : string) (a : App) : bool :=
  match selectedLead a with
  | Some sel => bool_decide (id sel = i)
  | None => false
  end.

(** The component's [deleteLead]; [confirmed] is what [confirm(...)]
    answered. *)
Definition deleteLead (i : string) (confirmed : bool) (a : App) : App * option Exn :=
  if confirmed then
    match API.deleteLead i (storage a) with
    | Ok (all, ls) =>
        let a1 := setLeads all (stored ls a) in
        let a2 := if selected_is i a then setSelectedLead None a1 else a1 in
        (showToast "Lead deleted successfully" success a2, None)
    | Throw e => (a, Some e)
    end
  else (a, None).


(** What it leaves when the slot could not be read: the exception [e]
    escapes; the panel already shows [updated]; the slot and the shown leads
    are as before. *)
Definition unsaved (updated : Lead) (e : Exn) (a : App) (r : App * option Exn) : Prop :=
  r.2 = Some e ∧
  selectedLead r.1 = Some updated ∧
  storage r.1 = storage a ∧
  leads r.1 = leads a ∧
  toast r.1 = toast a.

Section Search.
(** [String.prototype.toLowerCase], whatever it does to a text. *)
Variable toLowerCase : string → string.

(** [filteredLeads]: the leads whose name or username contains the search
    text, case aside. *)
Definition filteredLeads (search : string) (leads : list Lead) : list Lead :=
  filter (λ l, includes (toLowerCase (full_name l)) (toLowerCase search)
               || includes (toLowerCase (username l)) (toLowerCase search) = true)
    leads.
End Search.

End Part0App.


(** ** More of [src/index.tsx] *)

Module IndexApp.
Import Index.

(** [MockBackend.triggerFollowup], from where its 1500 ms wait is over:
    [updateStatus(id, 'Contacted')] at the instant [now], then [true]. *)
Definition triggerFollowup (i : string) (now : Instant) (ls : gmap string (Text Lead))
  : Res (bool * gmap string (Text Lead)) :=
  '(_, ls') ← MockBackend.updateStatus i Contacted now ls;
  Ok (true, ls').

(** One entry of [demoLeads]. *)
Definition demo (u f : string) (p : Platform) (c : string) (s : LeadStatus)
  : PartialLead :=
  {| p_id := None; p_username := Some u; p_full_name := Some f;
     p_profile_url := None; p_email := None; p_phone := None;
     p_source_platform := Some p; p_captured_from := Some c;
     p_captured_content := None; p_timestamp := None; p_status := Some s;
     p_last_contacted := None |}.

Definition demoLeads : list PartialLead :=
  [ demo "alex_design" "Alex Johnson" Instagram "Comment" Converted;
    demo "sarah_biz" "Sarah Smith" Facebook "DM" Contacted;
    demo "tech_guru" "Mark Miller" Instagram "Comment" New;
    demo "growth_expert" "Elena Rose" Instagram "Ad" New ].

(** [ds.forEach(l => MockBackend.captureLead(l))]; [draw k] is what the call
    for the [k]-th entry draws and reads. *)
Fixpoint captureEach (ds : list PartialLead) (k : nat) (draw : nat → Entropy * Instant)
    (ls : gmap string (Text Lead)) : Res (gmap string (Text Lead)) :=
  match ds with
  | [] => Ok ls
  | d :: ds =>
      '(_, ls') ← MockBackend.captureLead d (draw k).1 (draw k).2 ls;
      captureEach ds (S k) draw ls'
  end.

(** [setLeads(v)] on a slot [ls]. *)
Definition show (v : list Lead) (ls : gmap string (Text Lead)) (a : App) : App :=
  {| leads := v; isAutomating := isAutomating a; lastSync := lastSync a;
     interval := interval a; timeouts := timeouts a;
     next_handle := next_handle a; clock := clock a; storage := ls |}.

(** The component as [useState] and the automation effect make it at instant
    [now]: no lead shown, automation on, its interval set 8000 ms ahead. *)
Definition initial (now : Instant) (ls : gmap string (Text Lead)) : App :=
  {| leads := []; isAutomating := true; lastSync := now;
     interval := Some (now + 8000); timeouts := []; next_handle := 0;
     clock := now; storage := ls |}.

(** The load effect: read the slot; when it holds no lead, capture the demo
    leads and read again; show what was read. *)
Definition loadEffect (draw : nat → Entropy * Instant) (a : App) : Res App :=
  data ← MockBackend.getLeads (storage a);
  match data with
  | [] =>
      ls ← captureEach demoLeads 0 draw (storage a);
      fresh ← MockBackend.getLeads ls;
      Ok (show fresh ls a)
  | _ => Ok (show data (storage a) a)
  end.

(** The counts of [stats]; its [conversionRate] is a rounded floating-point
    quotient and is not embedded. *)
Definition stats_total (leads : list Lead) : nat := length leads.

Definition stats_new (leads : list Lead) : nat :=
  length (filter (λ l, status l = New) leads).

Definition stats_contacted (leads : list Lead) : nat :=
  length (filter (λ l, status l = Contacted) leads).

Definition stats_converted (leads : list Lead) : nat :=
  length (filter (λ l, status l = Converted) leads).

Section Search.
(** [String.prototype.toLowerCase], whatever it does to a text. *)
Variable toLowerCase : string → string.

(** The predicate of [filteredLeads]; [None] is the choice ['All']. *)
Definition matches (filter : option LeadStatus) (platformFilter : option Platform)
    (search : string) (lead : Lead) : bool :=
  let matchesStatus :=
    match filter with
    | None => true
    | Some s => bool_decide (status lead = s)
    end in
  let matchesPlatform :=
    match platformFilter with
    | None => true
    | Some p => bool_decide (source_platform lead = p)
    end in
  let matchesSearch :=
    includes (toLowerCase (username lead)) (toLowerCase search)
    || includes (toLowerCase (full_name lead)) (toLowerCase search)
    || includes (toLowerCase (email lead)) (toLowerCase search) in
  matchesStatus && matchesPlatform && matchesSearch.

Definition filteredLeads (filter : option LeadStatus) (platformFilter : option Platform)
    (search : string) (leads : list Lead) : list Lead :=
  List.filter (matches filter platformFilter search) leads.
End Search.

(** The component state is the stored collection but for the marks of
    ticks: a shown lead is the stored one, or the stored one is [New] and
    the shown one is it marked [Processing]. *)
Definition shown_as (s d : Lead) : Prop :=
  s = d ∨ (status d = New ∧ s = set_status Processing d).

End IndexApp.

Module AppSamples.
Import Part0 Part0App.

(** The component of [part_000] showing [sarah], with her detail panel open. *)
Definition panel : App :=
  {| leads := [Samples.sarah]; selectedLead := Some Samples.sarah;
     toast := None; isSendingAIReply := true;
     storage := Samples.slot_sarah |}.

(** The same over a slot whose text is not JSON. *)
Definition panel_garbled : App :=
  {| leads := [Samples.sarah]; selectedLead := Some Samples.sarah;
     toast := None; isSendingAIReply := true;
     storage := {[ STORAGE_KEY := Garbled "{oops" ]} |}.

(** The component before its mount effect, over an empty [localStorage]. *)
Definition blank : App :=
  {| leads := []; selectedLead := None; toast := None;
     isSendingAIReply := false; storage := ∅ |}.

(** A lower-casing of the letters A to Z, which leaves every other
    character. *)
Definition lower_ascii (c : Ascii.ascii) : Ascii.ascii :=
  let n := Ascii.nat_of_ascii c in
  if (Nat.leb 65 n && Nat.leb n 90)%bool then Ascii.ascii_of_nat (n + 32) else c.

Fixpoint lower (s : string) : string :=
  match s with
  | EmptyString => EmptyString
  | String c s => String (lower_ascii c) (lower s)
  end.
End AppSamples.


(** ** Vocabulary for a lead in flight *)

Module InFlight.
Import Index IndexApp.

(** At most one entry of [ids] is [i]. *)
Definition sole (i : string) (ids : list string) : Prop :=
  ∀ p q : nat, ids !! p = Some i → ids !! q = Some i → p = q.

(** The slot of [a] holds the lead [l], with whatever [status] and
    [last_contacted] it has by now. *)
Definition stored_as (l : Lead) (a : App) : Prop :=
  ∃ db (p : nat) d,
    MockBackend.getLeads (storage a) = Ok db ∧ db !! p = Some d ∧
    same_but_status l d.

(** In state [a], where exactly one stored lead carries the id of [l], a run
    of the timeout [t] leaves [l] itself [Contacted] at the instant of the
    run: the stored and shown collection holds a lead that is [l] in every
    other field, has status [Contacted] and [last_contacted] at that
    instant, and is the only one of its id. *)
Definition contacts (l : Lead) (t : Timeout) (a : App) : Prop :=
  ∀ db now a',
    MockBackend.getLeads (storage a) = Ok db →
    sole (id l) (id <$> db) →
    Step a now (EvTimeout (handle t)) a' →
    MockBackend.getLeads (storage a') = Ok (leads a') ∧
    ∃ (j : nat) l',
      leads a' !! j = Some l' ∧
      same_but_status l l' ∧
      status l' = Contacted ∧
      last_contacted l' = Some now ∧
      ∀ (j' : nat) y, leads a' !! j' = Some y → id y = id l → j' = j.

(** The ids of the leads the captures of a run stored, the last one first. *)
Fixpoint captured (evs : list (Instant * Event)) : list string :=
  match evs with
  | [] => []
  | (now, EvCapture leadData rnd) :: evs =>
      captured evs ++ [id (MockBackend.newLead leadData rnd now)]
  | _ :: evs => captured evs
  end.

(** Two stored leads that share one id: the first [Contacted] long ago, the
    second [New]. *)
Definition twin_contacted : Lead :=
  {| id := "tw1n5h4r3"; username := "first_twin"; full_name := "First Twin";
     profile_url := "#"; email := "first_twin@example.com"; phone := "N/A";
     source_platform := Facebook; captured_from := "DM";
     captured_content := "Interested in your product!";
     timestamp := 100; status := Contacted; last_contacted := Some 500 |}.

Definition twin_new : Lead :=
  {| id := "tw1n5h4r3"; username := "second_twin"; full_name := "Second Twin";
     profile_url := "#"; email := "second_twin@example.com"; phone := "N/A";
     source_platform := Instagram; captured_from := "Comment";
     captured_content := "Interested in your product!";
     timestamp := 50; status := New; last_contacted := None |}.

Definition slot_twins : gmap string (Text Lead) :=
  MockBackend.saveLeads [twin_contacted; twin_new] ∅.

(** The component just mounted on [slot_twins] at instant 2000. *)
Definition app_twins : App :=
  {| leads := [twin_contacted; twin_new];
     isAutomating := true;
     lastSync := 2000;
     interval := Some 10000;
     timeouts := [];
     next_handle := 0;
     clock := 2000;
     storage := slot_twins |}.

(** [{ full_name: 'Late Comer' }] *)
Definition late_comer : PartialLead :=
  {| p_id := None; p_username := None; p_full_name := Some "Late Comer";
     p_profile_url := None; p_email := None; p_phone := None;
     p_source_platform := None; p_captured_from := None;
     p_captured_content := None; p_timestamp := None; p_status := None;
     p_last_contacted := None |}.

(** A run from [app0]: a tick, a capture, a status button, the timeout of
    the tick. *)
Definition busy_run : list (Instant * Event) :=
  [ (10000, EvTick);
    (11000, EvCapture late_comer Samples.dice);
    (12000, EvUpdateStatus "m4r7k0g5u" Converted);
    (13000, EvTimeout 0) ].

End InFlight.
(** * Properties *)

(** ** The storage slot *)

Section SlotFacts.
Context {L : Type}.
Implicit Types (ls : gmap string (Text L)) (leads : list L) (key : string).

Lemma load_save key leads ls : load key (save key leads ls) = Ok leads.
Proof.
  unfold load, save, setItem, getItem, JSON_stringify.
  by rewrite lookup_insert_eq.
Qed.

Lemma load_missing key ls : ls !! key = None → load key ls = Ok [].
Proof. unfold load, getItem. by intros ->. Qed.

Lemma load_blank key ls : ls !! key = Some Blank → load key ls = Ok [].
Proof. unfold load, getItem. by intros ->. Qed.

Lemma load_json key leads ls : ls !! key = Some (Json leads) → load key ls = Ok leads.
Proof. unfold load, getItem. by intros ->. Qed.

Lemma load_garbled key raw ls :
  ls !! key = Some (Garbled raw) → load key ls = Throw SyntaxError.
Proof. unfold load, getItem. by intros ->. Qed.

(** When [load] throws, the slot holds a text that is not JSON. *)
Lemma load_throw_inv key ls e :
  load key ls = Throw e → ∃ raw, ls !! key = Some (Garbled raw).
Proof.
  unfold load, getItem. destruct (ls !! key) as [[|leads|raw]|]; simpl; try done.
  intros _. by exists raw.
Qed.
End SlotFacts.

(** Binding a successful read. *)
Lemma bind_Ok {A B} (m : Res A) (k : A → Res B) a : m = Ok a → (m ≫= k) = k a.
Proof. by intros ->. Qed.

Ltac read_slot H := rewrite (bind_Ok _ _ _ H); simpl.

(** ** The repository of [part_000] *)

Section Repository.
Import Part0 Part0.API.
Implicit Types (ls : gmap string (Text Lead)) (all : list Lead) (l : Lead).

Lemma getLeads_saveLeads all ls : getLeads (saveLeads all ls) = Ok all.
Proof. apply load_save. Qed.

(** Replacing by id changes nothing where no id matches. *)
Lemma replace_absent (updated : Lead) all :
  (∀ l, l ∈ all → id l ≠ id updated) →
  (λ l, if decide (id l = id updated) then updated else l) <$> all = all.
Proof.
  induction all as [|l all IH]; intros Habs; [done|]. cbn.
  rewrite decide_False by (apply Habs; left).
  f_equal. apply IH. intros l' Hl'. apply Habs. by right.
Qed.

(** Filtering out an id keeps everything where no id matches. *)
Lemma filter_absent (i : string) all :
  (∀ l, l ∈ all → id l ≠ i) → filter (λ l, id l ≠ i) all = all.
Proof.
  induction all as [|l all IH]; intros Habs; [done|].
  rewrite filter_cons_True by (apply Habs; left).
  f_equal. apply IH. intros l' Hl'. apply Habs. by right.
Qed.

(** C6.  For a slot holding the collection [all] and an id that no lead of
    [all] carries, [updateLead] with a record of that id and [deleteLead] of
    that id both return [all] itself, without throwing, and the slot they
    leave holds [all] again. *)
Theorem absent_id_is_noop ls all (i : string) (updated : Lead) :
  getLeads ls = Ok all →
  (∀ l, l ∈ all → id l ≠ i) →
  id updated = i →
  (∃ ls', updateLead updated ls = Ok (all, ls') ∧ getLeads ls' = Ok all) ∧
  (∃ ls', deleteLead i ls = Ok (all, ls') ∧ getLeads ls' = Ok all).
Proof.
  intros Hget Habs <-. split.
  - exists (saveLeads all ls). split; [|apply getLeads_saveLeads].
    unfold updateLead. read_slot Hget. by rewrite replace_absent.
  - exists (saveLeads all ls). split; [|apply getLeads_saveLeads].
    unfold deleteLead. read_slot Hget. by rewrite filter_absent.
Qed.

Lemma absent_id_is_noop_witness :
  (∃ ls', updateLead Samples.ghost Samples.slot_sarah = Ok ([Samples.sarah], ls') ∧
          getLeads ls' = Ok [Samples.sarah]) ∧
  (∃ ls', deleteLead "ghost" Samples.slot_sarah = Ok ([Samples.sarah], ls') ∧
          getLeads ls' = Ok [Samples.sarah]).
Proof.
  apply (absent_id_is_noop Samples.slot_sarah [Samples.sarah] "ghost" Samples.ghost).
  - reflexivity.
  - intros l Hl. apply list_elem_of_singleton in Hl as ->. discriminate.
  - reflexivity.
Defined.

End Repository.

Section RepositoryCreate.
Import Part0 Part0.API.
Implicit Types (ls : gmap string (Text Lead)) (all : list Lead) (l : Lead).

(** After the spread, a key the caller gave holds the caller's value, and
    a key the caller left out holds the default: an empty string the caller
    gave is kept, although [||] had first replaced it. *)
Lemma spread_or_str (a : option string) (d : string) :
  spread a (or_str a d) = default d a.
Proof. by destruct a. Qed.

Lemma spread_or_tag {A} (a : option A) (d : A) : spread a (or_tag a d) = default d a.
Proof. by destruct a. Qed.

Lemma spread_default {A} (a : option A) (d : A) : spread a d = default d a.
Proof. by destruct a. Qed.

Lemma addLead_Ok ls all lead rnd now :
  getLeads ls = Ok all →
  addLead lead rnd now ls
  = Ok (newLead lead rnd now :: all, saveLeads (newLead lead rnd now :: all) ls).
Proof. intros Hget. unfold addLead. by read_slot Hget. Qed.

Lemma updateLead_Ok ls all (updated : Lead) :
  getLeads ls = Ok all →
  updateLead updated ls
  = Ok ((λ l, if decide (id l = id updated) then updated else l) <$> all,
        saveLeads ((λ l, if decide (id l = id updated) then updated else l) <$> all) ls).
Proof. intros Hget. unfold updateLead. by read_slot Hget. Qed.

Lemma deleteLead_Ok ls all (i : string) :
  getLeads ls = Ok all →
  deleteLead i ls
  = Ok (filter (λ l, id l ≠ i) all, saveLeads (filter (λ l, id l ≠ i) all) ls).
Proof. intros Hget. unfold deleteLead. by read_slot Hget. Qed.

End RepositoryCreate.

(** ** The backend of [index.tsx] *)

Section Backend.
Import Index Index.MockBackend.
Implicit Types (ls : gmap string (Text Lead)) (all : list Lead) (l : Lead).

Lemma backend_getLeads_saveLeads all ls : getLeads (saveLeads all ls) = Ok all.
Proof. apply load_save. Qed.

Lemma captureLead_Ok ls all leadData rnd now :
  getLeads ls = Ok all →
  captureLead leadData rnd now ls
  = Ok (newLead leadData rnd now, saveLeads (newLead leadData rnd now :: all) ls).
Proof. intros Hget. unfold captureLead. by read_slot Hget. Qed.

Lemma updateStatus_found ls all (i : string) s now k l :
  getLeads ls = Ok all →
  list_find (λ l, id l = i) all = Some (k, l) →
  updateStatus i s now ls
  = Ok (Some (touch s now l), saveLeads (<[k := touch s now l]> all) ls).
Proof. intros Hget Hfind. unfold updateStatus. read_slot Hget. by rewrite Hfind. Qed.

Lemma updateStatus_absent ls all (i : string) s now :
  getLeads ls = Ok all →
  list_find (λ l, id l = i) all = None →
  updateStatus i s now ls = Ok (None, ls).
Proof. intros Hget Hfind. unfold updateStatus. read_slot Hget. by rewrite Hfind. Qed.

(** An id some lead carries is found, at the first lead carrying it. *)
Lemma find_present all (i : string) :
  i ∈ id <$> all → ∃ k l, list_find (λ l, id l = i) all = Some (k, l).
Proof.
  intros Hin. apply list_elem_of_fmap in Hin as (l & -> & Hl).
  destruct (list_find_elem_of (λ y, id y = id l) all l Hl eq_refl) as [[k l'] Hfind].
  by exists k, l'.
Qed.

Lemma touch_id s now l : id (touch s now l) = id l.
Proof. unfold touch. by case_decide. Qed.

Lemma touch_timestamp s now l : timestamp (touch s now l) = timestamp l.
Proof. unfold touch. by case_decide. Qed.

Lemma touch_status s now l : status (touch s now l) = s.
Proof. unfold touch. by case_decide. Qed.

Lemma touch_last_contacted s now l :
  last_contacted (touch s now l)
  = if decide (s = Contacted) then Some now else last_contacted l.
Proof. unfold touch. by case_decide. Qed.

Lemma touch_frame s now l : same_but_status l (touch s now l).
Proof. unfold touch, same_but_status. by case_decide. Qed.

(** Assigning through [touch] at a position keeps every id where it is. *)
Lemma touch_ids all k l s now :
  all !! k = Some l → id <$> <[k := touch s now l]> all = id <$> all.
Proof.
  intros Hk. rewrite list_fmap_insert, touch_id.
  apply list_insert_id. by rewrite list_lookup_fmap, Hk.
Qed.

Lemma touch_timestamps all k l s now :
  all !! k = Some l → timestamp <$> <[k := touch s now l]> all = timestamp <$> all.
Proof.
  intros Hk. rewrite list_fmap_insert, touch_timestamp.
  apply list_insert_id. by rewrite list_lookup_fmap, Hk.
Qed.

End Backend.

(** ** The store's read (C8) *)

(** C8 (amended).  Both [getLeads] return the empty collection when the slot
    is missing or holds the empty text, return the stored collection when the
    slot holds the JSON text of one, and throw the [SyntaxError] of
    [JSON.parse] when the slot holds a text that is not JSON. *)
Theorem getLeads_outcomes :
  (∀ (ls : gmap string (Text Index.Lead)) leads raw,
      Index.MockBackend.getLeads (delete Index.STORAGE_KEY ls) = Ok [] ∧
      Index.MockBackend.getLeads (<[Index.STORAGE_KEY := Blank]> ls) = Ok [] ∧
      Index.MockBackend.getLeads (<[Index.STORAGE_KEY := Json leads]> ls) = Ok leads ∧
      Index.MockBackend.getLeads (<[Index.STORAGE_KEY := Garbled raw]> ls)
      = Throw SyntaxError) ∧
  (∀ (ls : gmap string (Text Part0.Lead)) leads raw,
      Part0.API.getLeads (delete Part0.STORAGE_KEY ls) = Ok [] ∧
      Part0.API.getLeads (<[Part0.STORAGE_KEY := Blank]> ls) = Ok [] ∧
      Part0.API.getLeads (<[Part0.STORAGE_KEY := Json leads]> ls) = Ok leads ∧
      Part0.API.getLeads (<[Part0.STORAGE_KEY := Garbled raw]> ls)
      = Throw SyntaxError).
Proof.
  split; intros ls leads raw; repeat split.
  - apply load_missing, lookup_delete_eq.
  - apply load_blank, lookup_insert_eq.
  - apply load_json, lookup_insert_eq.
  - eapply load_garbled, lookup_insert_eq.
  - apply load_missing, lookup_delete_eq.
  - apply load_blank, lookup_insert_eq.
  - apply load_json, lookup_insert_eq.
  - eapply load_garbled, lookup_insert_eq.
Qed.

(** C8, as stated, fails: on a slot whose text is not JSON neither
    [getLeads] returns the empty collection; each throws. *)
Lemma getLeads_garbled_throws :
  Index.MockBackend.getLeads IndexSamples.slot_garbled = Throw SyntaxError ∧
  Index.MockBackend.getLeads IndexSamples.slot_garbled ≠ Ok [] ∧
  Part0.API.getLeads {[ Part0.STORAGE_KEY := Garbled "{oops" ]} = Throw SyntaxError ∧
  Part0.API.getLeads {[ Part0.STORAGE_KEY := Garbled "{oops" ]} ≠ Ok [].
Proof. repeat split; done. Qed.

(** ** Status updates (C10, C1) *)

Section StatusUpdate.
Import Index Index.MockBackend.
Implicit Types (ls : gmap string (Text Lead)) (all : list Lead) (l : Lead).

(** C10.  On a slot holding [all] and an id some lead of [all] carries,
    [updateStatus] returns the first lead with that id, with the new status
    and, exactly when the new status is [Contacted], with [last_contacted]
    at the current instant; that lead's other fields, every other
    position, and the length and order of the stored collection are as
    before. *)
Theorem updateStatus_frame ls all (i : string) (s : LeadStatus) (now : Instant) :
  getLeads ls = Ok all →
  i ∈ id <$> all →
  ∃ k l l' ls' all',
    list_find (λ l, id l = i) all = Some (k, l) ∧
    updateStatus i s now ls = Ok (Some l', ls') ∧
    getLeads ls' = Ok all' ∧
    length all' = length all ∧
    all' !! k = Some l' ∧
    (∀ j, j ≠ k → all' !! j = all !! j) ∧
    same_but_status l l' ∧
    status l' = s ∧
    last_contacted l'
    = if decide (s = Contacted) then Some now else last_contacted l.
Proof.
  intros Hget Hin.
  destruct (find_present all i Hin) as (k & l & Hfind).
  pose proof Hfind as (Hk & _ & _)%list_find_Some.
  exists k, l, (touch s now l), (saveLeads (<[k := touch s now l]> all) ls),
    (<[k := touch s now l]> all).
  split; [done|].
  split; [by apply updateStatus_found|].
  split; [apply backend_getLeads_saveLeads|].
  split; [apply length_insert|].
  split; [apply list_lookup_insert_eq; by eapply lookup_lt_Some|].
  split; [intros j Hj; by apply list_lookup_insert_ne|].
  split; [apply touch_frame|].
  split; [apply touch_status|apply touch_last_contacted].
Qed.

Lemma updateStatus_frame_witness :
  ∃ k l l' ls' all',
    list_find (λ l, id l = "m4r7k0g5u") [IndexSamples.elena; IndexSamples.mark]
    = Some (k, l) ∧
    updateStatus "m4r7k0g5u" Converted 5000 IndexSamples.slot_seeded
    = Ok (Some l', ls') ∧
    getLeads ls' = Ok all' ∧
    length all' = length [IndexSamples.elena; IndexSamples.mark] ∧
    all' !! k = Some l' ∧
    (∀ j, j ≠ k → all' !! j = [IndexSamples.elena; IndexSamples.mark] !! j) ∧
    same_but_status l l' ∧
    status l' = Converted ∧
    last_contacted l'
    = if decide (Converted = Contacted) then Some 5000 else last_contacted l.
Proof.
  apply (updateStatus_frame IndexSamples.slot_seeded
           [IndexSamples.elena; IndexSamples.mark] "m4r7k0g5u" Converted 5000).
  - reflexivity.
  - simpl. right. left.
Defined.

(** C1 (amended).  A transition into [Contacted] made by [updateStatus]
    (the path of the scheduler and of the status buttons) sets
    [last_contacted] of the first lead with the id to the instant of the
    call and saves it; the lead's [timestamp] is untouched, so
    [last_contacted] is not earlier than it whenever the call is not. *)
Theorem contacted_sets_last_contacted ls all (i : string) (now : Instant) :
  getLeads ls = Ok all →
  i ∈ id <$> all →
  ∃ k l l' ls',
    list_find (λ l, id l = i) all = Some (k, l) ∧
    updateStatus i Contacted now ls = Ok (Some l', ls') ∧
    getLeads ls' = Ok (<[k := l']> all) ∧
    status l' = Contacted ∧
    last_contacted l' = Some now ∧
    timestamp l' = timestamp l ∧
    (timestamp l ≤ now → ∃ c, last_contacted l' = Some c ∧ timestamp l' ≤ c).
Proof.
  intros Hget Hin.
  destruct (find_present all i Hin) as (k & l & Hfind).
  exists k, l, (touch Contacted now l),
    (saveLeads (<[k := touch Contacted now l]> all) ls).
  split; [done|].
  split; [by apply updateStatus_found|].
  split; [apply backend_getLeads_saveLeads|].
  split; [apply touch_status|].
  split; [by rewrite touch_last_contacted|].
  split; [apply touch_timestamp|].
  intros Hle. exists now. by rewrite touch_last_contacted, touch_timestamp.
Qed.

Lemma contacted_sets_last_contacted_witness :
  ∃ k l l' ls',
    list_find (λ l, id l = "e1e9n4a2r") [IndexSamples.elena; IndexSamples.mark]
    = Some (k, l) ∧
    updateStatus "e1e9n4a2r" Contacted 5000 IndexSamples.slot_seeded
    = Ok (Some l', ls') ∧
    getLeads ls' = Ok (<[k := l']> [IndexSamples.elena; IndexSamples.mark]) ∧
    status l' = Contacted ∧
    last_contacted l' = Some 5000 ∧
    timestamp l' = timestamp l ∧
    (timestamp l ≤ 5000 → ∃ c, last_contacted l' = Some c ∧ timestamp l' ≤ c).
Proof.
  apply (contacted_sets_last_contacted IndexSamples.slot_seeded
           [IndexSamples.elena; IndexSamples.mark] "e1e9n4a2r" 5000).
  - reflexivity.
  - simpl. left.
Defined.

End StatusUpdate.

(** C1, as stated, fails twice.  [API.updateLead] moves a [New] lead to
    [Contacted] and stores the record it was given, whose [last_contacted]
    is unset.  And [updateStatus] at instant 200 on a lead captured with the
    caller's timestamp 9000 leaves [last_contacted] earlier than the
    timestamp. *)
Lemma contacted_without_last_contacted :
  (Part0.status Samples.sarah = New ∧
   ∃ ls', Part0.API.updateLead Samples.sarah_contacted Samples.slot_sarah
          = Ok ([Samples.sarah_contacted], ls') ∧
          Part0.API.getLeads ls' = Ok [Samples.sarah_contacted] ∧
          Part0.status Samples.sarah_contacted = Contacted ∧
          Part0.last_contacted Samples.sarah_contacted = None) ∧
  (∃ l ls1 l' ls2,
      Index.MockBackend.captureLead IndexSamples.postdated Samples.dice 100 ∅
      = Ok (l, ls1) ∧
      Index.MockBackend.updateStatus (Index.id l) Contacted 200 ls1
      = Ok (Some l', ls2) ∧
      Index.status l' = Contacted ∧
      Index.last_contacted l' = Some 200 ∧
      Index.timestamp l' = 9000 ∧
      ¬ (Index.timestamp l' ≤ 200)).
Proof.
  split.
  - split; [done|]. eexists. repeat split; vm_compute; reflexivity.
  - do 4 eexists. split; [vm_compute; reflexivity|].
    split; [vm_compute; reflexivity|]. repeat split; try done. simpl. lia.
Qed.

(** ** Creation (C7) *)

Section Create.
Import Part0 Part0.API.
Implicit Types (ls : gmap string (Text Lead)) (all : list Lead) (l : Lead).

(** C7 (amended).  On a slot holding [all], [addLead] prepends one record,
    saves and returns the collection.  In that record every key the
    partial lead gives holds the given value, [id] and [timestamp]
    included, and every key it leaves out holds its default: the random
    token for [id], the current instant for [timestamp], [New] for
    [status], name ["New Prospect"], empty [email] and [phone], platform
    [Instagram], origin ["Direct Message"], empty [notes];
    [last_contacted] is set only if given.  No required field is unset. *)
Theorem addLead_fills_defaults ls all (lead : PartialLead) (rnd : Entropy)
    (now : Instant) :
  getLeads ls = Ok all →
  ∃ r ls',
    addLead lead rnd now ls = Ok (r :: all, ls') ∧
    getLeads ls' = Ok (r :: all) ∧
    id r = default (token rnd) (p_id lead) ∧
    timestamp r = default now (p_timestamp lead) ∧
    status r = default New (p_status lead) ∧
    username r
    = default ("user_" +:+ NilZero.string_of_uint (Nat.to_uint (serial rnd)))
        (p_username lead) ∧
    full_name r = default "New Prospect" (p_full_name lead) ∧
    email r = default "" (p_email lead) ∧
    phone r = default "" (p_phone lead) ∧
    source_platform r = default Instagram (p_source_platform lead) ∧
    captured_from r = default "Direct Message" (p_captured_from lead) ∧
    captured_content r
    = default "Interested in your product!" (p_captured_content lead) ∧
    notes r = Some (default "" (p_notes lead)) ∧
    last_contacted r = p_last_contacted lead.
Proof.
  intros Hget.
  exists (newLead lead rnd now), (saveLeads (newLead lead rnd now :: all) ls).
  split; [by apply addLead_Ok|].
  split; [apply getLeads_saveLeads|].
  unfold newLead, defaults; cbn [id timestamp status username full_name email
    phone source_platform captured_from captured_content notes last_contacted].
  rewrite !spread_or_str, spread_or_tag, !spread_default.
  repeat split; try reflexivity.
  - by destruct (p_notes lead).
  - by destruct (p_last_contacted lead).
Qed.

Lemma addLead_fills_defaults_witness :
  ∃ r ls',
    addLead empty_partial Samples.dice 3000 Samples.slot_sarah
    = Ok (r :: [Samples.sarah], ls') ∧
    getLeads ls' = Ok (r :: [Samples.sarah]) ∧
    id r = default (token Samples.dice) (p_id empty_partial) ∧
    timestamp r = default 3000 (p_timestamp empty_partial) ∧
    status r = default New (p_status empty_partial) ∧
    username r
    = default ("user_" +:+ NilZero.string_of_uint (Nat.to_uint (serial Samples.dice)))
        (p_username empty_partial) ∧
    full_name r = default "New Prospect" (p_full_name empty_partial) ∧
    email r = default "" (p_email empty_partial) ∧
    phone r = default "" (p_phone empty_partial) ∧
    source_platform r = default Instagram (p_source_platform empty_partial) ∧
    captured_from r = default "Direct Message" (p_captured_from empty_partial) ∧
    captured_content r
    = default "Interested in your product!" (p_captured_content empty_partial) ∧
    notes r = Some (default "" (p_notes empty_partial)) ∧
    last_contacted r = p_last_contacted empty_partial.
Proof.
  apply (addLead_fills_defaults Samples.slot_sarah [Samples.sarah] empty_partial
           Samples.dice 3000).
  reflexivity.
Defined.

(** The empty partial lead gets the documented record. *)
Example addLead_empty_partial :
  newLead empty_partial Samples.dice 3000
  = {| id := "q7w1e5r9t"; username := "user_42"; full_name := "New Prospect";
       email := ""; phone := ""; source_platform := Instagram;
       captured_from := "Direct Message";
       captured_content := "Interested in your product!";
       timestamp := 3000; status := New; last_contacted := None;
       notes := Some "" |}.
Proof. reflexivity. Qed.

End Create.

(** [captureLead] of [index.tsx] fills the same way, from its own defaults. *)
Lemma captureLead_fills_defaults (ls : gmap string (Text Index.Lead)) all leadData
    rnd now :
  Index.MockBackend.getLeads ls = Ok all →
  ∃ r ls',
    Index.MockBackend.captureLead leadData rnd now ls = Ok (r, ls') ∧
    Index.MockBackend.getLeads ls' = Ok (r :: all) ∧
    Index.id r = default (token rnd) (Index.p_id leadData) ∧
    Index.timestamp r = default now (Index.p_timestamp leadData) ∧
    Index.status r = default New (Index.p_status leadData) ∧
    Index.username r = default "unknown_user" (Index.p_username leadData) ∧
    Index.full_name r = default "Prospect" (Index.p_full_name leadData) ∧
    Index.profile_url r = default "#" (Index.p_profile_url leadData) ∧
    Index.email r
    = default (Index.MockBackend.interpolate (Index.p_username leadData)
               +:+ "@example.com") (Index.p_email leadData) ∧
    Index.phone r = default "N/A" (Index.p_phone leadData) ∧
    Index.source_platform r = default Instagram (Index.p_source_platform leadData) ∧
    Index.captured_from r = default "Comment" (Index.p_captured_from leadData) ∧
    Index.captured_content r
    = default "Interested in your product!" (Index.p_captured_content leadData) ∧
    Index.last_contacted r = Index.p_last_contacted leadData.
Proof.
  intros Hget. do 2 eexists.
  split; [by apply captureLead_Ok|].
  split; [apply backend_getLeads_saveLeads|].
  unfold Index.MockBackend.newLead, Index.MockBackend.defaults; cbn.
  rewrite !spread_or_str, spread_or_tag, !spread_default.
  repeat split; try reflexivity.
  by destruct (Index.p_last_contacted leadData).
Qed.

(** C7, as stated, fails: given [{ id: 'mine', timestamp: 5 }] at instant 1000
    with the random token of [dice], [addLead] returns a record whose id is
    the caller's, not the token, and whose timestamp is the caller's, not the
    current instant.  And [captureLead] names an anonymous lead ["Prospect"]. *)
Lemma create_takes_callers_id_and_timestamp :
  (∃ r ls',
      Part0.API.addLead Samples.with_id_and_date Samples.dice 1000 ∅ = Ok ([r], ls') ∧
      Part0.id r = "mine" ∧ Part0.id r ≠ token Samples.dice ∧
      Part0.timestamp r = 5 ∧ Part0.timestamp r ≠ 1000) ∧
  (∃ r ls',
      Index.MockBackend.captureLead Index.empty_partial Samples.dice 1000 ∅
      = Ok (r, ls') ∧
      Index.full_name r = "Prospect" ∧ Index.full_name r ≠ "New Prospect").
Proof.
  split; do 2 eexists; (split; [vm_compute; reflexivity|]); repeat split; done.
Qed.

(** ** What the operations keep of [id] and [timestamp] (C9) *)

Section Identity.
Import Part0 Part0.API.
Implicit Types (ls : gmap string (Text Lead)) (all : list Lead) (l : Lead).

(** [updateLead] leaves every id at its position. *)
Lemma replace_ids (updated : Lead) all :
  id <$> ((λ l, if decide (id l = id updated) then updated else l) <$> all)
  = id <$> all.
Proof.
  rewrite <- list_fmap_compose. apply list_fmap_ext.
  intros k l _. simpl. by case_decide.
Qed.

(** C9 (amended).  Every repository operation leaves each remaining lead's
    [id] where it was.  [updateStatus] also leaves every [timestamp];
    [deleteLead] returns the other leads as they are, in the same order;
    [updateLead] returns the other leads as they are and puts the record
    it was given, with that record's [timestamp], in place of each lead of
    the same id.  [addLead] leaves the stored leads as they are and gives
    the new record the partial lead's [id] and [timestamp] when it has
    them, the random token and the current instant otherwise. *)
Theorem id_and_timestamp_kept ls all (ls2 : gmap string (Text Index.Lead))
    (all2 : list Index.Lead)
    (updated : Lead) (i : string) (lead : PartialLead) (rnd : Entropy)
    (now : Instant) (j : string) (s : LeadStatus) :
  getLeads ls = Ok all →
  Index.MockBackend.getLeads ls2 = Ok all2 →
  (∃ all' ls',
      updateLead updated ls = Ok (all', ls') ∧ getLeads ls' = Ok all' ∧
      id <$> all' = id <$> all ∧
      ∀ k l, all !! k = Some l →
             all' !! k = Some (if decide (id l = id updated) then updated else l)) ∧
  (∃ all' ls',
      deleteLead i ls = Ok (all', ls') ∧ getLeads ls' = Ok all' ∧
      all' `sublist_of` all ∧
      ∀ l, l ∈ all' ↔ l ∈ all ∧ id l ≠ i) ∧
  (∃ r ls',
      addLead lead rnd now ls = Ok (r :: all, ls') ∧ getLeads ls' = Ok (r :: all) ∧
      id r = default (token rnd) (p_id lead) ∧
      timestamp r = default now (p_timestamp lead)) ∧
  (∃ upd st' leads',
      Index.MockBackend.updateStatus j s now ls2 = Ok (upd, st') ∧
      Index.MockBackend.getLeads st' = Ok leads' ∧
      Index.id <$> leads' = Index.id <$> all2 ∧
      Index.timestamp <$> leads' = Index.timestamp <$> all2).
Proof.
  intros Hget Hget2. split; [|split; [|split]].
  - do 2 eexists. split; [by apply updateLead_Ok|].
    split; [apply getLeads_saveLeads|].
    split; [apply replace_ids|].
    intros k l Hk. by rewrite list_lookup_fmap, Hk.
  - do 2 eexists. split; [by apply deleteLead_Ok|].
    split; [apply getLeads_saveLeads|].
    split; [apply sublist_filter|].
    intros l. rewrite list_elem_of_filter. tauto.
  - do 2 eexists. split; [by apply addLead_Ok|].
    split; [apply getLeads_saveLeads|].
    unfold newLead, defaults; cbn [id timestamp]. by rewrite !spread_default.
  - destruct (list_find (λ y, Index.id y = j) all2) as [[k y]|] eqn:Hfind.
    + pose proof Hfind as (Hk & _ & _)%list_find_Some.
      do 3 eexists. split; [by eapply updateStatus_found|].
      split; [apply backend_getLeads_saveLeads|].
      split; [by apply touch_ids|by apply touch_timestamps].
    + do 3 eexists. split; [by eapply updateStatus_absent|]. by split.
Qed.

Lemma id_and_timestamp_kept_witness :
  (∃ all' ls',
      updateLead Samples.sarah_redated Samples.slot_sarah = Ok (all', ls') ∧
      getLeads ls' = Ok all' ∧
      id <$> all' = id <$> [Samples.sarah] ∧
      ∀ k l, [Samples.sarah] !! k = Some l →
             all' !! k
             = Some (if decide (id l = id Samples.sarah_redated)
                     then Samples.sarah_redated else l)) ∧
  (∃ all' ls',
      deleteLead "ghost" Samples.slot_sarah = Ok (all', ls') ∧
      getLeads ls' = Ok all' ∧
      all' `sublist_of` [Samples.sarah] ∧
      ∀ l, l ∈ all' ↔ l ∈ [Samples.sarah] ∧ id l ≠ "ghost") ∧
  (∃ r ls',
      addLead Samples.with_id_and_date Samples.dice 3000 Samples.slot_sarah
      = Ok (r :: [Samples.sarah], ls') ∧
      getLeads ls' = Ok (r :: [Samples.sarah]) ∧
      id r = default (token Samples.dice) (p_id Samples.with_id_and_date) ∧
      timestamp r = default 3000 (p_timestamp Samples.with_id_and_date)) ∧
  (∃ upd st' leads',
      Index.MockBackend.updateStatus "m4r7k0g5u" Lost 3000 IndexSamples.slot_seeded
      = Ok (upd, st') ∧
      Index.MockBackend.getLeads st' = Ok leads' ∧
      Index.id <$> leads' = Index.id <$> [IndexSamples.elena; IndexSamples.mark] ∧
      Index.timestamp <$> leads'
      = Index.timestamp <$> [IndexSamples.elena; IndexSamples.mark]).
Proof.
  apply (id_and_timestamp_kept Samples.slot_sarah [Samples.sarah]
           IndexSamples.slot_seeded [IndexSamples.elena; IndexSamples.mark]
           Samples.sarah_redated "ghost" Samples.with_id_and_date Samples.dice
           3000 "m4r7k0g5u" Lost); reflexivity.
Defined.

End Identity.

(** C9, as stated, fails twice.  [updateLead] with [{ ...sarah, timestamp }]
    replaces the stored timestamp 1000 of the lead by 7777.  And [addLead]
    given [{ id: 'mine', timestamp: 5 }] stores that id and that timestamp
    instead of the random token and the current instant. *)
Lemma update_redates_and_create_accepts_id :
  (Part0.id Samples.sarah_redated = Part0.id Samples.sarah ∧
   Part0.timestamp Samples.sarah = 1000 ∧
   ∃ l ls',
     Part0.API.updateLead Samples.sarah_redated Samples.slot_sarah = Ok ([l], ls') ∧
     Part0.API.getLeads ls' = Ok [l] ∧
     Part0.id l = Part0.id Samples.sarah ∧
     Part0.timestamp l = 7777) ∧
  (∃ r ls',
      Part0.API.addLead Samples.with_id_and_date Samples.dice 3000 Samples.slot_sarah
      = Ok ([r; Samples.sarah], ls') ∧
      Part0.id r = "mine" ∧ Part0.id r ≠ token Samples.dice ∧
      Part0.timestamp r = 5 ∧ Part0.timestamp r ≠ 3000).
Proof.
  split.
  - split; [done|]. split; [done|]. do 2 eexists.
    split; [vm_compute; reflexivity|]. repeat split; vm_compute; reflexivity.
  - do 2 eexists. split; [vm_compute; reflexivity|]. repeat split; done.
Qed.

(** ** Sequences of operations (C5) *)

Section Sequences.
Import Part0 Part0.API Ops.
Implicit Types (ls : gmap string (Text Lead)) (all : list Lead) (l : Lead).
Implicit Types (m : gmap string Lead) (ops : list Op).

Lemma holds_empty : holds_exactly [] ∅.
Proof.
  split; [constructor|]. intros i l. rewrite lookup_empty.
  split; [done|]. intros [[]%elem_of_nil _].
Qed.

(** A record under a new id joins the collection. *)
Lemma holds_create all m (r : Lead) :
  holds_exactly all m →
  m !! id r = None →
  holds_exactly (r :: all) (<[id r := r]> m).
Proof.
  intros [Hnd Hm] Hfresh.
  assert (Hnew : ∀ l, l ∈ all → id l ≠ id r).
  { intros l Hl Heq. assert (m !! id r = Some l) by (by apply Hm). congruence. }
  split.
  - rewrite fmap_cons. apply NoDup_cons. split; [|done].
    intros (l & Heq & Hl)%list_elem_of_fmap. by apply (Hnew l).
  - intros i l. destruct (decide (i = id r)) as [->|Hne].
    + rewrite lookup_insert_eq. split.
      * intros [= <-]. split; [left|done].
      * intros [[->|Hl]%elem_of_cons Heq]; [done|]. by destruct (Hnew l).
    + rewrite lookup_insert_ne by done. rewrite Hm, elem_of_cons.
      split; [intros [Hl Heq]; split; [by right|done]|].
      intros [[->|Hl] Heq]; [congruence|done].
Qed.

(** An update replaces the record of an id that is there, and nothing
    otherwise. *)
Lemma holds_update all m (updated : Lead) :
  holds_exactly all m →
  holds_exactly ((λ l, if decide (id l = id updated) then updated else l) <$> all)
    (record (Update updated) m).
Proof.
  intros [Hnd Hm]. cbn [record].
  destruct (m !! id updated) as [l0|] eqn:Hl0.
  - apply Hm in Hl0 as [Hl0 Hid0]. split; [by rewrite replace_ids|].
    intros i l. rewrite list_elem_of_fmap.
    destruct (decide (i = id updated)) as [->|Hne].
    + rewrite lookup_insert_eq. split.
      * intros [= <-]. split; [|done]. exists l0. by rewrite decide_True.
      * intros [(y & -> & Hy) Heq]. case_decide as Hd; [done|]. by destruct Hd.
    + rewrite lookup_insert_ne by done. rewrite Hm. split.
      * intros [Hl Heq]. split; [|done]. exists l.
        by rewrite decide_False by congruence.
      * intros [(y & -> & Hy) Heq]. case_decide; [congruence|done].
  - rewrite replace_absent; [done|].
    intros l Hl Heq. assert (m !! id updated = Some l) by (by apply Hm). congruence.
Qed.

(** A delete forgets the id. *)
Lemma holds_delete all m (i : string) :
  holds_exactly all m →
  holds_exactly (filter (λ l, id l ≠ i) all) (delete i m).
Proof.
  intros [Hnd Hm]. split.
  - eapply sublist_NoDup; [exact Hnd|]. apply fmap_sublist, sublist_filter.
  - intros k l. rewrite lookup_delete_Some, Hm, list_elem_of_filter. split.
    + intros (Hne & Hl & <-). by repeat split.
    + intros ((Hne & Hl) & <-). by repeat split.
Qed.

(** One operation keeps the slot and the map in step. *)
Lemma perform_holds op ls all m :
  getLeads ls = Ok all →
  holds_exactly all m →
  fresh_ids [op] m →
  ∃ ls' all', perform op ls = Ok ls' ∧ getLeads ls' = Ok all' ∧
              holds_exactly all' (record op m).
Proof.
  intros Hget Hm [Hfresh _]. destruct op as [lead rnd now|updated|i]; cbn [perform].
  - rewrite (addLead_Ok _ _ _ _ _ Hget). do 2 eexists.
    split; [done|]. split; [apply getLeads_saveLeads|]. by apply holds_create.
  - rewrite (updateLead_Ok _ _ _ Hget). do 2 eexists.
    split; [done|]. split; [apply getLeads_saveLeads|]. by apply holds_update.
  - rewrite (deleteLead_Ok _ _ _ Hget). do 2 eexists.
    split; [done|]. split; [apply getLeads_saveLeads|]. by apply holds_delete.
Qed.

Lemma perform_all_holds ops ls all m :
  getLeads ls = Ok all →
  holds_exactly all m →
  fresh_ids ops m →
  ∃ ls' all', perform_all ops ls = Ok ls' ∧ getLeads ls' = Ok all' ∧
              holds_exactly all' (last_written ops m).
Proof.
  revert ls all m. induction ops as [|op ops IH]; intros ls all m Hget Hm Hfresh.
  - by exists ls, all.
  - destruct Hfresh as [Hop Hrest].
    destruct (perform_holds op ls all m Hget Hm) as (ls1 & all1 & Hp & Hget1 & Hm1);
      [by split|].
    destruct (IH ls1 all1 _ Hget1 Hm1 Hrest) as (ls' & all' & Hp' & Hget' & Hm').
    exists ls', all'. split; [|done]. cbn [perform_all]. by read_slot Hp.
Qed.

(** C5 (amended).  For every finite sequence of create, update and delete
    calls run from the empty store in which every create yields an id that
    is not in the collection at that point, all calls succeed and the
    collection read afterwards has no id twice and holds exactly the last
    written records: a record is listed if and only if it is the one last
    written for its id and that id was not deleted since. *)
Theorem list_after_operations ops :
  fresh_ids ops ∅ →
  ∃ ls all,
    perform_all ops ∅ = Ok ls ∧
    getLeads ls = Ok all ∧
    NoDup (id <$> all) ∧
    ∀ i l, last_written ops ∅ !! i = Some l ↔ l ∈ all ∧ id l = i.
Proof.
  intros Hfresh.
  destruct (perform_all_holds ops ∅ [] ∅ (load_missing _ _ (lookup_empty _))
              holds_empty Hfresh)
    as (ls & all & Hp & Hget & Hnd & Hm).
  by exists ls, all.
Qed.

Lemma list_after_operations_witness :
  ∃ ls all,
    perform_all History.busy ∅ = Ok ls ∧
    getLeads ls = Ok all ∧
    NoDup (id <$> all) ∧
    ∀ i l, last_written History.busy ∅ !! i = Some l ↔ l ∈ all ∧ id l = i.
Proof.
  apply (list_after_operations History.busy).
  repeat split; reflexivity.
Defined.

(** What the sample sequence leaves: the second record, as updated. *)
Example busy_result :
  (perform_all History.busy ∅ ≫= getLeads)
  = Ok [newLead Samples.with_id_a_named Samples.dice 3000].
Proof. reflexivity. Qed.

End Sequences.

(** C5, as stated, fails: after two creates that are both given the id ['a'],
    the list holds two records of that id, and the older one does not carry
    the values last written for it. *)
Lemma duplicate_id_keeps_stale_record :
  ∃ ls fresh stale,
    Ops.perform_all History.clash ∅ = Ok ls ∧
    Part0.API.getLeads ls = Ok [fresh; stale] ∧
    Part0.id fresh = "a" ∧ Part0.id stale = "a" ∧
    Ops.last_written History.clash ∅ !! "a" = Some fresh ∧
    stale ≠ fresh ∧
    ¬ NoDup (Part0.id <$> [fresh; stale]).
Proof.
  do 3 eexists. split; [vm_compute; reflexivity|].
  split; [vm_compute; reflexivity|].
  split; [reflexivity|]. split; [reflexivity|].
  split; [vm_compute; reflexivity|].
  split; [discriminate|].
  intros Hnd. apply NoDup_cons in Hnd as [Hnotin _]. apply Hnotin. left.
Qed.

(** ** The automation tick (C3) *)

Section Tick.
Import Index Index.MockBackend.
Implicit Types (a : App) (l : Lead) (t : Timeout).

Lemma tick_selects a k l :
  list_find (λ l, status l = New) (leads a) = Some (k, l) →
  leads (tick a) = <[k := set_status Processing l]> (leads a) ∧
  timeouts (tick a)
  = timeouts a ++ [{| handle := next_handle a; due := clock a + 3000;
                      target := id l |}] ∧
  next_handle (tick a) = S (next_handle a) ∧
  storage (tick a) = storage a ∧
  interval (tick a) = interval a ∧
  isAutomating (tick a) = isAutomating a ∧
  clock (tick a) = clock a.
Proof. intros Hfind. unfold tick. by rewrite Hfind. Qed.

Lemma tick_idle a :
  list_find (λ l, status l = New) (leads a) = None → tick a = a.
Proof. intros Hfind. unfold tick. by rewrite Hfind. Qed.

(** With the two seeded [New] leads, one tick marks the first and leaves
    the second [New]. *)
Example tick_two_new :
  leads (tick IndexSamples.app0)
  = [set_status Processing IndexSamples.elena; IndexSamples.mark] ∧
  timeouts (tick IndexSamples.app0)
  = [{| handle := 0; due := 5000; target := "e1e9n4a2r" |}].
Proof. split; reflexivity. Qed.

End Tick.

(** ** The component's invariant *)

Section Invariant.
Import Index Index.MockBackend.
Implicit Types (a b : App) (l : Lead) (t : Timeout) (db : list Lead).

(** What the timeout closure does, by whether the id is still stored. *)
Lemma onTimeout_spec (i : string) b db :
  getLeads (storage b) = Ok db →
  ∃ a', onTimeout i b = Ok a' ∧
        timeouts a' = timeouts b ∧ next_handle a' = next_handle b ∧
        interval a' = interval b ∧ isAutomating a' = isAutomating b ∧
        clock a' = clock b ∧
        ((∃ k l, list_find (λ l, id l = i) db = Some (k, l) ∧
                 getLeads (storage a') = Ok (<[k := touch Contacted (clock b) l]> db) ∧
                 leads a' = <[k := touch Contacted (clock b) l]> db ∧
                 lastSync a' = clock b)
         ∨ (list_find (λ l, id l = i) db = None ∧
            storage a' = storage b ∧ leads a' = leads b ∧
            lastSync a' = lastSync b)).
Proof.
  intros Hget. unfold onTimeout.
  destruct (list_find (λ l, id l = i) db) as [[k l]|] eqn:Hfind.
  - rewrite (updateStatus_found _ _ _ _ _ _ _ Hget Hfind). cbn -[getLeads saveLeads].
    rewrite backend_getLeads_saveLeads. cbn -[getLeads saveLeads]. eexists. split; [done|]. cbn -[getLeads saveLeads newLead].
    repeat (split; [done|]). left. exists k, l.
    split; [done|]. split; [apply backend_getLeads_saveLeads|done].
  - rewrite (updateStatus_absent _ _ _ _ _ Hget Hfind). cbn -[getLeads saveLeads].
    eexists. split; [done|]. cbn -[getLeads saveLeads]. repeat (split; [done|]). by right.
Qed.

(** What a status button does. *)
Lemma handleUpdateStatus_spec (i : string) (s : LeadStatus) b db :
  getLeads (storage b) = Ok db →
  ∃ a' db', handleUpdateStatus i s b = Ok a' ∧
        timeouts a' = timeouts b ∧ next_handle a' = next_handle b ∧
        interval a' = interval b ∧ isAutomating a' = isAutomating b ∧
        clock a' = clock b ∧
        getLeads (storage a') = Ok db' ∧ leads a' = db' ∧
        id <$> db' = id <$> db.
Proof.
  intros Hget. unfold handleUpdateStatus.
  destruct (list_find (λ l, id l = i) db) as [[k l]|] eqn:Hfind.
  - rewrite (updateStatus_found _ _ _ _ _ _ _ Hget Hfind). cbn -[getLeads saveLeads].
    rewrite backend_getLeads_saveLeads. cbn -[getLeads saveLeads]. do 2 eexists. split; [done|]. cbn -[getLeads saveLeads newLead].
    repeat (split; [done|]). split; [apply backend_getLeads_saveLeads|].
    split; [done|]. apply touch_ids. by apply list_find_Some in Hfind as (? & _).
  - rewrite (updateStatus_absent _ _ _ _ _ Hget Hfind). cbn -[getLeads saveLeads].
    rewrite Hget. cbn -[getLeads saveLeads]. do 2 eexists. split; [done|]. cbn -[getLeads saveLeads newLead].
    by repeat (split; [done|]).
Qed.

(** What a capture does. *)
Lemma onCapture_spec leadData rnd b db :
  getLeads (storage b) = Ok db →
  ∃ a', onCapture leadData rnd b = Ok a' ∧
        timeouts a' = timeouts b ∧ next_handle a' = next_handle b ∧
        interval a' = interval b ∧ isAutomating a' = isAutomating b ∧
        clock a' = clock b ∧
        getLeads (storage a') = Ok (newLead leadData rnd (clock b) :: db) ∧
        leads a' = newLead leadData rnd (clock b) :: db.
Proof.
  intros Hget. unfold onCapture.
  rewrite (captureLead_Ok _ _ _ _ _ Hget). cbn -[getLeads saveLeads newLead].
  rewrite backend_getLeads_saveLeads. cbn -[getLeads saveLeads newLead]. eexists. split; [done|]. cbn -[getLeads saveLeads newLead].
  repeat (split; [done|]). split; [apply backend_getLeads_saveLeads|done].
Qed.

(** A state that reads a collection with at least the old ids, shows only
    stored ids and keeps some of the old timeouts is consistent again. *)
Lemma consistent_evolve a a' db db' :
  Consistent a →
  getLeads (storage a) = Ok db →
  getLeads (storage a') = Ok db' →
  id <$> db ⊆ id <$> db' →
  id <$> leads a' ⊆ id <$> db' →
  timeouts a' `sublist_of` timeouts a →
  next_handle a' = next_handle a →
  interval a' = interval a →
  isAutomating a' = isAutomating a →
  Consistent a'.
Proof.
  intros ((db0 & Hget0 & Hleads & Htargets) & Hhandles & Hnodup & Hlive)
    Hget Hget' Hids Hleads' Hsub Hnext Hint Hauto.
  assert (db0 = db) as -> by congruence.
  assert (Hin : ∀ t, t ∈ timeouts a' → t ∈ timeouts a).
  { intros t. by apply sublist_subseteq. }
  split; [|split; [|split]].
  - exists db'. split; [done|]. split; [done|].
    intros t Ht. apply Hids, Htargets, Hin, Ht.
  - intros t Ht. rewrite Hnext. apply Hhandles, Hin, Ht.
  - eapply sublist_NoDup; [exact Hnodup|]. by apply fmap_sublist.
  - by rewrite Hint, Hauto.
Qed.

Lemma mounted_consistent a : mounted a → Consistent a.
Proof.
  intros (Hget & Htimeouts & Hauto & Hint).
  split; [|split; [|split]].
  - exists (leads a). split; [done|]. split; [done|].
    intros t. rewrite Htimeouts. by intros ?%elem_of_nil.
  - intros t. rewrite Htimeouts. by intros ?%elem_of_nil.
  - rewrite Htimeouts. constructor.
  - rewrite Hint, Hauto. split; discriminate.
Qed.

(** Marking a lead keeps every id of the component state in place. *)
Lemma mark_ids (leads : list Lead) k l s :
  leads !! k = Some l → id <$> <[k := set_status s l]> leads = id <$> leads.
Proof.
  intros Hk. rewrite list_fmap_insert. cbn.
  apply list_insert_id. by rewrite list_lookup_fmap, Hk.
Qed.

Lemma tick_consistent a : Consistent a → Consistent (tick a).
Proof.
  intros Hc.
  destruct (list_find (λ l, status l = New) (leads a)) as [[k l]|] eqn:Hfind;
    [|by rewrite tick_idle].
  destruct (tick_selects a k l Hfind)
    as (Hleads & Htimeouts & Hnext & Hstorage & Hint & Hauto & _).
  apply list_find_Some in Hfind as (Hk & _ & _).
  destruct Hc as ((db & Hget & Hshown & Htargets) & Hhandles & Hnodup & Hlive).
  split; [|split; [|split]].
  - exists db. split; [by rewrite Hstorage|].
    split; [by rewrite Hleads, mark_ids|].
    intros t. rewrite Htimeouts, elem_of_app, list_elem_of_singleton.
    intros [Ht| ->]; [by apply Htargets|]. cbn. apply Hshown.
    apply list_elem_of_fmap. exists l. split; [done|].
    by eapply list_elem_of_lookup_2.
  - intros t. rewrite Htimeouts, Hnext, elem_of_app, list_elem_of_singleton.
    intros [Ht| ->]; [|cbn; lia]. specialize (Hhandles t Ht). lia.
  - rewrite Htimeouts, fmap_app. apply NoDup_app. split; [done|]. split.
    + intros h (t & -> & Ht)%list_elem_of_fmap. cbn.
      rewrite list_elem_of_singleton. specialize (Hhandles t Ht). lia.
    + cbn. apply NoDup_singleton.
  - by rewrite Hint, Hauto.
Qed.

Lemma toggle_consistent a : Consistent a → Consistent (toggle a).
Proof.
  intros (Hdb & Hhandles & Hnodup & Hlive).
  split; [done|]. split; [done|]. split; [done|]. cbn -[getLeads saveLeads newLead].
  destruct (isAutomating a); cbn; split; done.
Qed.

Lemma at_time_consistent now a : Consistent a → Consistent (at_time now a).
Proof. done. Qed.

Lemma rearm_consistent d a :
  Consistent a → isAutomating a = true → Consistent (rearm d a).
Proof.
  intros (Hdb & Hhandles & Hnodup & Hlive) Hauto.
  split; [done|]. split; [done|]. split; [done|]. cbn -[getLeads saveLeads newLead].
  rewrite Hauto. split; discriminate.
Qed.

Lemma consume_consistent h a : Consistent a → Consistent (consume h a).
Proof.
  intros Hc. pose proof Hc as ((db & Hget & Hshown & _) & _).
  apply (consistent_evolve a _ db db Hc Hget); try done.
  apply sublist_filter.
Qed.

(** Every callback keeps the invariant. *)
Lemma step_consistent a now ev a' : Consistent a → Step a now ev a' → Consistent a'.
Proof.
  intros Hc Hstep. destruct Hstep as [d _ Hint _|t b _ Ht _ Hfire|i s b _ Hrun
                                      |leadData rnd b _ Hrun|_].
  - apply tick_consistent, rearm_consistent; [done|].
    destruct Hc as (_ & _ & _ & Hlive). cbn.
    destruct (isAutomating a); [done|].
    destruct Hlive as [_ Hoff]. rewrite Hoff in Hint by done. discriminate.
  - pose proof (consume_consistent (handle t) _ (at_time_consistent now a Hc)) as Hc1.
    pose proof Hc1 as ((db & Hget & Hshown & _) & _).
    destruct (onTimeout_spec (target t) _ db Hget)
      as (a' & Hrun & Htimeouts & Hnext & Hint & Hauto & _ & Hcases).
    rewrite Hrun in Hfire. injection Hfire as <-.
    destruct Hcases as [(k & l & Hfind & Hget' & Hleads & _)
                       |(_ & Hstorage & Hleads & _)].
    + apply list_find_Some in Hfind as (Hk & _).
      apply (consistent_evolve _ a' db _ Hc1 Hget Hget'); try done.
      * by rewrite touch_ids.
      * by rewrite Hleads.
      * by rewrite Htimeouts.
    + apply (consistent_evolve _ a' db db Hc1 Hget); try done.
      * by rewrite Hstorage.
      * by rewrite Hleads.
      * by rewrite Htimeouts.
  - pose proof (at_time_consistent now a Hc) as Hc1.
    pose proof Hc1 as ((db & Hget & _) & _).
    destruct (handleUpdateStatus_spec i s _ db Hget)
      as (a' & db' & Hrun' & Htimeouts & Hnext & Hint & Hauto & _ & Hget' & Hleads & Hids).
    rewrite Hrun' in Hrun. injection Hrun as <-.
    apply (consistent_evolve _ a' db db' Hc1 Hget Hget'); try done.
    + by rewrite Hids.
    + by rewrite Hleads.
    + by rewrite Htimeouts.
  - pose proof (at_time_consistent now a Hc) as Hc1.
    pose proof Hc1 as ((db & Hget & _) & _).
    destruct (onCapture_spec leadData rnd _ db Hget)
      as (a' & Hrun' & Htimeouts & Hnext & Hint & Hauto & _ & Hget' & Hleads).
    rewrite Hrun' in Hrun. injection Hrun as <-.
    apply (consistent_evolve _ a' db _ Hc1 Hget Hget'); try done.
    + rewrite fmap_cons. intros x Hx. by right.
    + by rewrite Hleads.
    + by rewrite Htimeouts.
  - by apply toggle_consistent, at_time_consistent.
Qed.

Lemma reachable_consistent a : Reachable a → Consistent a.
Proof.
  induction 1 as [a Hm|a now ev a' _ IH Hstep];
    [by apply mounted_consistent|by eapply step_consistent].
Qed.

Lemma run_consistent a evs a' : Consistent a → Run a evs a' → Consistent a'.
Proof.
  intros Hc Hrun. induction Hrun as [a|a now ev a1 evs a2 Hstep _ IH]; [done|].
  apply IH. by eapply step_consistent.
Qed.

Lemma run_reachable a evs a' : Reachable a → Run a evs a' → Reachable a'.
Proof.
  intros Hr Hrun. induction Hrun as [a|a now ev a1 evs a2 Hstep _ IH]; [done|].
  apply IH. by eapply ReachStep.
Qed.

End Invariant.

(** ** The delayed transition (C2, C4) *)

Section Delayed.
Import Index Index.MockBackend.
Implicit Types (a b : App) (l : Lead) (t : Timeout) (db : list Lead).
Implicit Types (evs : list (Instant * Event)).

(** Distinct handles tell pending timeouts apart. *)
Lemma same_handle (ts : list Timeout) t t' :
  NoDup (handle <$> ts) → t ∈ ts → t' ∈ ts → handle t = handle t' → t = t'.
Proof.
  induction ts as [|t0 ts IH]; [by intros _ ?%elem_of_nil|].
  rewrite fmap_cons, NoDup_cons. intros [Hfresh Hnd].
  intros [->|Ht]%elem_of_cons [->|Ht']%elem_of_cons Heq; [done| | |by apply IH].
  - destruct Hfresh. rewrite Heq. by apply list_elem_of_fmap_2.
  - destruct Hfresh. rewrite <- Heq. by apply list_elem_of_fmap_2.
Qed.

Lemma tick_keeps_pending a t : t ∈ timeouts a → t ∈ timeouts (tick a).
Proof.
  intros Ht. destruct (list_find (λ l, status l = New) (leads a)) as [[k l]|] eqn:Hfind;
    [|by rewrite tick_idle].
  destruct (tick_selects a k l Hfind) as (_ & -> & _). apply elem_of_app. by left.
Qed.

(** No callback but its own removes a pending timeout: the file has no
    [clearTimeout]. *)
Lemma step_keeps_pending a now ev a' t :
  Consistent a →
  t ∈ timeouts a →
  Step a now ev a' →
  ev ≠ EvTimeout (handle t) →
  t ∈ timeouts a'.
Proof.
  intros Hc Ht Hstep Hev.
  destruct Hstep as [d _ Hint _|t' b _ Ht' _ Hfire|i s b _ Hrun
                     |leadData rnd b _ Hrun|_].
  - by apply tick_keeps_pending.
  - pose proof (consume_consistent (handle t') _ (at_time_consistent now a Hc))
      as ((db & Hget & _) & _).
    destruct (onTimeout_spec (target t') _ db Hget) as (a' & Hrun & Htimeouts & _).
    rewrite Hrun in Hfire. injection Hfire as <-. rewrite Htimeouts. cbn.
    apply list_elem_of_filter. split; [|done]. intros Heq. apply Hev. by rewrite Heq.
  - pose proof (at_time_consistent now a Hc) as ((db & Hget & _) & _).
    destruct (handleUpdateStatus_spec i s _ db Hget) as (a' & db' & Hrun' & Htimeouts & _).
    rewrite Hrun' in Hrun. injection Hrun as <-. by rewrite Htimeouts.
  - pose proof (at_time_consistent now a Hc) as ((db & Hget & _) & _).
    destruct (onCapture_spec leadData rnd _ db Hget) as (a' & Hrun' & Htimeouts & _).
    rewrite Hrun' in Hrun. injection Hrun as <-. by rewrite Htimeouts.
  - done.
Qed.

Lemma run_keeps_pending a evs a' t :
  Consistent a →
  t ∈ timeouts a →
  Run a evs a' →
  ¬ fires (handle t) evs →
  t ∈ timeouts a'.
Proof.
  intros Hc Ht Hrun. revert Hc Ht.
  induction Hrun as [a|a now ev a1 evs a2 Hstep _ IH]; intros Hc Ht Hquiet; [done|].
  apply IH.
  - by eapply step_consistent.
  - eapply step_keeps_pending; [done..|]. intros ->. apply Hquiet. exists now. left.
  - intros [n Hn]. apply Hquiet. exists n. by right.
Qed.

(** Assigning at the found position keeps it the found position. *)
Lemma find_after_touch db (i : string) k l s now :
  list_find (λ l, id l = i) db = Some (k, l) →
  list_find (λ l, id l = i) (<[k := touch s now l]> db) = Some (k, touch s now l).
Proof.
  intros (Hk & Hid & Hfirst)%list_find_Some. apply list_find_Some.
  split; [apply list_lookup_insert_eq; by eapply lookup_lt_Some|].
  split; [by rewrite touch_id|].
  intros j y Hj Hlt. rewrite list_lookup_insert_ne in Hj by lia. by eapply Hfirst.
Qed.

(** A pending timeout of a consistent state completes. *)
Lemma pending_completes a t : Consistent a → t ∈ timeouts a → completes t a.
Proof.
  intros Hc Ht. split; [done|].
  assert (Hfire : ∀ now, ∃ a' k l,
             onTimeout (target t) (consume (handle t) (at_time now a)) = Ok a' ∧
             timeouts a' = filter (λ t', handle t' ≠ handle t) (timeouts a) ∧
             list_find (λ l, id l = target t) (leads a') = Some (k, l) ∧
             getLeads (storage a') = Ok (leads a') ∧
             status l = Contacted ∧ last_contacted l = Some now ∧
             lastSync a' = now).
  { intros now.
    pose proof Hc as ((db & Hget & _ & Htargets) & _).
    destruct (onTimeout_spec (target t) (consume (handle t) (at_time now a)) db Hget)
      as (a' & Hrun & Htimeouts & _ & _ & _ & _ & Hcases).
    destruct Hcases as [(k & l & Hfind & Hget' & Hleads & Hsync)|(Hnone & _)].
    - exists a', k, (touch Contacted now l). split; [done|]. split; [done|].
      rewrite Hleads. split; [by apply find_after_touch|]. split; [done|].
      split; [apply touch_status|]. split; [by rewrite touch_last_contacted|done].
    - destruct (find_present db (target t) (Htargets t Ht)) as (k & l & Hfind).
      congruence. }
  split.
  - intros now Hclock Hdue. destruct (Hfire now) as (a' & _ & _ & Hrun & _).
    exists a'. by apply StepTimeout.
  - intros now a' Hstep.
    inversion Hstep as [|t' b _ Ht' Hdue Hrun Hev| | |]; subst b.
    assert (t' = t) as -> by (destruct Hc as (_ & _ & Hnd & _); by eapply same_handle).
    destruct (Hfire now) as (b & k & l & Hrun' & Htimeouts & Hfind & Hget & Hst & Hlc & Hsync).
    rewrite Hrun' in Hrun. injection Hrun as <-.
    split; [done|]. split; [|split; [|done]].
    + rewrite Htimeouts. intros [Hne _]%list_elem_of_filter. by apply Hne.
    + split; [done|]. by exists k, l.
Qed.

(** While automation is off and the switch is not used, no tick runs. *)
Lemma run_while_off a evs a' :
  Consistent a →
  interval a = None →
  Run a evs a' →
  ¬ toggles evs →
  ¬ ticks evs ∧ interval a' = None.
Proof.
  intros Hc Hoff Hrun. revert Hc Hoff.
  induction Hrun as [a|a now ev a1 evs a2 Hstep _ IH]; intros Hc Hoff Hquiet.
  { split; [|done]. by intros [n ?%elem_of_nil]. }
  assert (Hstill : ev ≠ EvTick ∧ interval a1 = None).
  { destruct Hstep as [d _ Hint _|t' b _ Ht' _ Hfire|i s b _ Hrun
                       |leadData rnd b _ Hrun|_].
    - congruence.
    - pose proof (consume_consistent (handle t') _ (at_time_consistent now a Hc))
        as ((db & Hget & _) & _).
      destruct (onTimeout_spec (target t') _ db Hget) as (a' & Hrun & _ & _ & Hint & _).
      rewrite Hrun in Hfire. injection Hfire as <-. by rewrite Hint.
    - pose proof (at_time_consistent now a Hc) as ((db & Hget & _) & _).
      destruct (handleUpdateStatus_spec i s _ db Hget)
        as (a' & db' & Hrun' & _ & _ & Hint & _).
      rewrite Hrun' in Hrun. injection Hrun as <-. by rewrite Hint.
    - pose proof (at_time_consistent now a Hc) as ((db & Hget & _) & _).
      destruct (onCapture_spec leadData rnd _ db Hget) as (a' & Hrun' & _ & _ & Hint & _).
      rewrite Hrun' in Hrun. injection Hrun as <-. by rewrite Hint.
    - destruct Hquiet. exists now. left. }
  destruct Hstill as [Hev Hoff1].
  destruct IH as [Hnoticks Hoff2]; [by eapply step_consistent|done| |].
  - intros [n Hn]. apply Hquiet. exists n. by right.
  - split; [|done]. intros [n [Heq|Hn]%elem_of_cons].
    + injection Heq as _ <-. by apply Hev.
    + apply Hnoticks. by exists n.
Qed.

End Delayed.

Section Automation.
Import Index Index.MockBackend.
Implicit Types (a b : App) (l : Lead) (t : Timeout) (db : list Lead).
Implicit Types (evs : list (Instant * Event)).

(** What a tick that finds a [New] lead leaves. *)
Lemma tick_step a now a1 k l :
  Step a now EvTick a1 →
  list_find (λ l, status l = New) (leads a) = Some (k, l) →
  leads a1 = <[k := set_status Processing l]> (leads a) ∧
  storage a1 = storage a ∧
  automation_timeout a now l ∈ timeouts a1.
Proof.
  intros Hstep Hfind. inversion Hstep as [d _ Hint _ Hev| | | |]; subst a1.
  destruct (tick_selects (rearm d (at_time now a)) k l Hfind)
    as (Hleads & Htimeouts & _ & Hstorage & _).
  split; [done|]. split; [done|].
  rewrite Htimeouts. apply elem_of_app. right. by apply list_elem_of_singleton.
Qed.

(** The sample run to the end: tick at 10000, switch off at 11000, the
    timeout at 13000.  The first lead is [Contacted] at 13000, the second is
    still [New], nothing is pending and the interval is cleared. *)
Example sample_run :
  ∃ a3,
    Run IndexSamples.app0
      [(10000, EvTick); (11000, EvToggle); (13000, EvTimeout 0)] a3 ∧
    leads a3
    = [set_last_contacted 13000 (set_status Contacted IndexSamples.elena);
       IndexSamples.mark] ∧
    getLeads (storage a3) = Ok (leads a3) ∧
    timeouts a3 = [] ∧ interval a3 = None ∧ lastSync a3 = 13000.
Proof.
  eexists. split.
  - eapply RunCons.
    { apply (StepTick IndexSamples.app0 10000 10000); [simpl; lia|reflexivity|lia]. }
    eapply RunCons; [apply StepToggle; simpl; lia|].
    eapply RunCons; [|apply RunNil].
    apply (StepTimeout _ 13000 {| handle := 0; due := 13000; target := "e1e9n4a2r" |});
      [simpl; lia|simpl; left|simpl; lia|vm_compute; reflexivity].
  - repeat split; vm_compute; reflexivity.
Qed.

End Automation.

(** * Further properties *)

(** ** The repository of [part_000], continued *)

Section RepositoryMore.
Import Part0 Part0.API.
Implicit Types (ls : gmap string (Text Lead)) (all : list Lead) (l : Lead).

(** Saving what the slot already holds leaves the slot as it is. *)
Lemma saveLeads_twice all ls : saveLeads all (saveLeads all ls) = saveLeads all ls.
Proof. unfold saveLeads, save, setItem. apply insert_insert_eq. Qed.

(** Replacing by id twice is replacing once. *)
Lemma replace_twice (updated : Lead) all :
  (λ l, if decide (id l = id updated) then updated else l)
    <$> ((λ l, if decide (id l = id updated) then updated else l) <$> all)
  = (λ l, if decide (id l = id updated) then updated else l) <$> all.
Proof.
  rewrite <- list_fmap_compose. apply list_fmap_ext. intros k l _. simpl.
  destruct (decide (id l = id updated)) as [Heq|Hne].
  - by rewrite decide_True.
  - by rewrite decide_False.
Qed.

(** [deleteLead] removes every lead of the id, never adds one, and is
    idempotent: deleting the id again returns the same collection and
    leaves the slot as the first deletion left it. *)
Theorem deleteLead_removes_all ls all (i : string) :
  getLeads ls = Ok all →
  ∃ all' ls',
    deleteLead i ls = Ok (all', ls') ∧
    getLeads ls' = Ok all' ∧
    (∀ l, l ∈ all' → id l ≠ i) ∧
    (length all' ≤ length all)%nat ∧
    deleteLead i ls' = Ok (all', ls').
Proof.
  intros Hget.
  exists (filter (λ l, id l ≠ i) all), (saveLeads (filter (λ l, id l ≠ i) all) ls).
  split; [by apply deleteLead_Ok|].
  split; [apply getLeads_saveLeads|].
  split; [by intros l [Hne _]%list_elem_of_filter|].
  split; [apply length_filter|].
  rewrite (deleteLead_Ok _ _ _ (getLeads_saveLeads _ _)).
  rewrite filter_absent by (by intros l [Hne _]%list_elem_of_filter).
  by rewrite saveLeads_twice.
Qed.

Lemma deleteLead_removes_all_witness :
  ∃ all' ls',
    deleteLead "k3x9a7q2m" Samples.slot_sarah = Ok (all', ls') ∧
    getLeads ls' = Ok all' ∧
    (∀ l, l ∈ all' → id l ≠ "k3x9a7q2m") ∧
    (length all' ≤ length [Samples.sarah])%nat ∧
    deleteLead "k3x9a7q2m" ls' = Ok (all', ls').
Proof.
  apply (deleteLead_removes_all Samples.slot_sarah [Samples.sarah] "k3x9a7q2m").
  reflexivity.
Defined.

(** [updateLead] keeps the length, leaves no lead of the record's id other
    than the record itself, and is idempotent. *)
Theorem updateLead_overwrites ls all (updated : Lead) :
  getLeads ls = Ok all →
  ∃ all' ls',
    updateLead updated ls = Ok (all', ls') ∧
    getLeads ls' = Ok all' ∧
    length all' = length all ∧
    (∀ l, l ∈ all' → id l = id updated → l = updated) ∧
    updateLead updated ls' = Ok (all', ls').
Proof.
  intros Hget. do 2 eexists.
  split; [by apply updateLead_Ok|].
  split; [apply getLeads_saveLeads|].
  split; [apply length_fmap|].
  split.
  - intros l (y & -> & Hy)%list_elem_of_fmap Heq.
    case_decide as Hd; [done|]. by destruct Hd.
  - rewrite (updateLead_Ok _ _ _ (getLeads_saveLeads _ _)).
    by rewrite replace_twice, saveLeads_twice.
Qed.

Lemma updateLead_overwrites_witness :
  ∃ all' ls',
    updateLead Samples.sarah_contacted Samples.slot_sarah = Ok (all', ls') ∧
    getLeads ls' = Ok all' ∧
    length all' = length [Samples.sarah] ∧
    (∀ l, l ∈ all' → id l = id Samples.sarah_contacted → l = Samples.sarah_contacted) ∧
    updateLead Samples.sarah_contacted ls' = Ok (all', ls').
Proof.
  apply (updateLead_overwrites Samples.slot_sarah [Samples.sarah] Samples.sarah_contacted).
  reflexivity.
Defined.

(** Adding a lead whose id no stored lead has and then deleting that id
    gives back the collection there was. *)
Theorem addLead_then_deleteLead ls all (lead : PartialLead) (rnd : Entropy)
    (now : Instant) :
  getLeads ls = Ok all →
  (∀ l, l ∈ all → id l ≠ id (newLead lead rnd now)) →
  ∃ ls1 ls2,
    addLead lead rnd now ls = Ok (newLead lead rnd now :: all, ls1) ∧
    deleteLead (id (newLead lead rnd now)) ls1 = Ok (all, ls2) ∧
    getLeads ls2 = Ok all.
Proof.
  intros Hget Hfresh. do 2 eexists.
  split; [by apply addLead_Ok|].
  rewrite (deleteLead_Ok _ _ _ (getLeads_saveLeads _ _)).
  rewrite filter_cons_False by (by intros Hne).
  rewrite filter_absent by done.
  split; [done|apply getLeads_saveLeads].
Qed.

Lemma addLead_then_deleteLead_witness :
  ∃ ls1 ls2,
    addLead empty_partial Samples.dice 3000 Samples.slot_sarah
    = Ok (newLead empty_partial Samples.dice 3000 :: [Samples.sarah], ls1) ∧
    deleteLead (id (newLead empty_partial Samples.dice 3000)) ls1
    = Ok ([Samples.sarah], ls2) ∧
    getLeads ls2 = Ok [Samples.sarah].
Proof.
  apply (addLead_then_deleteLead Samples.slot_sarah [Samples.sarah] empty_partial
           Samples.dice 3000).
  - reflexivity.
  - intros l Hl. apply list_elem_of_singleton in Hl as ->. discriminate.
Defined.

(** On a slot whose text is not JSON every operation of [API] throws the
    [SyntaxError]; none of them repairs the slot. *)
Theorem garbled_slot_stops_API ls (raw : string) :
  ls !! STORAGE_KEY = Some (Garbled raw) →
  (∀ lead rnd now, addLead lead rnd now ls = Throw SyntaxError) ∧
  (∀ updated, updateLead updated ls = Throw SyntaxError) ∧
  (∀ i, deleteLead i ls = Throw SyntaxError).
Proof.
  intros Hraw.
  assert (Hget : getLeads ls = Throw SyntaxError) by (by eapply load_garbled).
  repeat split; intros; unfold addLead, updateLead, deleteLead; by rewrite Hget.
Qed.

Lemma garbled_slot_stops_API_witness :
  (∀ lead rnd now,
      addLead lead rnd now {[ STORAGE_KEY := Garbled "{oops" ]} = Throw SyntaxError) ∧
  (∀ updated, updateLead updated {[ STORAGE_KEY := Garbled "{oops" ]} = Throw SyntaxError) ∧
  (∀ i, deleteLead i {[ STORAGE_KEY := Garbled "{oops" ]} = Throw SyntaxError).
Proof.
  apply (garbled_slot_stops_API {[ STORAGE_KEY := Garbled "{oops" ]} "{oops").
  reflexivity.
Defined.

(** A successful operation of [API] writes the collection it returns, whole,
    under its own key, and touches no other key of [localStorage]; it does
    so even when it changed nothing. *)
Theorem API_writes_what_it_returns ls all' ls' (lead : PartialLead) (rnd : Entropy)
    (now : Instant) (updated : Lead) (i : string) :
  addLead lead rnd now ls = Ok (all', ls') ∨
  updateLead updated ls = Ok (all', ls') ∨
  deleteLead i ls = Ok (all', ls') →
  ls' = <[STORAGE_KEY := Json all']> ls ∧
  ls' !! STORAGE_KEY = Some (Json all') ∧
  ∀ key, key ≠ STORAGE_KEY → ls' !! key = ls !! key.
Proof.
  intros Hop.
  assert (Hls : ls' = <[STORAGE_KEY := Json all']> ls).
  { destruct (getLeads ls) as [all|e] eqn:Hget.
    - rewrite (addLead_Ok _ _ _ _ _ Hget), (updateLead_Ok _ _ _ Hget),
        (deleteLead_Ok _ _ _ Hget) in Hop.
      destruct Hop as [[= <- <-]|[[= <- <-]|[= <- <-]]]; reflexivity.
    - unfold addLead, updateLead, deleteLead in Hop. rewrite Hget in Hop.
      destruct Hop as [?|[?|?]]; discriminate. }
  split; [done|]. rewrite Hls. split; [apply lookup_insert_eq|].
  intros key Hkey. by rewrite lookup_insert_ne.
Qed.

Lemma API_writes_what_it_returns_witness :
  saveLeads [Samples.sarah] Samples.slot_sarah
  = <[STORAGE_KEY := Json [Samples.sarah]]> Samples.slot_sarah ∧
  saveLeads [Samples.sarah] Samples.slot_sarah !! STORAGE_KEY
  = Some (Json [Samples.sarah]) ∧
  ∀ key, key ≠ STORAGE_KEY →
         saveLeads [Samples.sarah] Samples.slot_sarah !! key
         = Samples.slot_sarah !! key.
Proof.
  apply (API_writes_what_it_returns Samples.slot_sarah [Samples.sarah]
           (saveLeads [Samples.sarah] Samples.slot_sarah) empty_partial
           Samples.dice 0 Samples.sarah "none").
  right. right. reflexivity.
Defined.

End RepositoryMore.

(** ** The component of [part_000] *)

Section Component.
Import Part0 Part0.API Part0App.
Implicit Types (ls : gmap string (Text Lead)) (db : list Lead) (l sel : Lead).
Implicit Types (a : App).

(** The mount effect shows what the slot holds and never leaves the slot
    empty: a slot with leads is not written, a slot without gets the two
    seed leads, the second one first.  Running the effect again, on a
    reload, changes nothing whatever it draws. *)
Theorem mountEffect_seeds_once (rnd1 rnd2 rnd3 rnd4 : Entropy)
    (now1 now2 now3 now4 : Instant) a db :
  getLeads (storage a) = Ok db →
  ∃ a',
    mountEffect rnd1 rnd2 now1 now2 a = Ok a' ∧
    getLeads (storage a') = Ok (leads a') ∧
    leads a' ≠ [] ∧
    (db ≠ [] → leads a' = db ∧ storage a' = storage a) ∧
    (db = [] → leads a' = [newLead seed_john rnd2 now2; newLead seed_sarah rnd1 now1]) ∧
    ∃ a'',
      mountEffect rnd3 rnd4 now3 now4 a' = Ok a'' ∧
      leads a'' = leads a' ∧ storage a'' = storage a'.
Proof.
  intros Hget. unfold mountEffect at 1. rewrite Hget. cbn -[getLeads addLead].
  destruct db as [|l db].
  - rewrite (addLead_Ok _ _ _ _ _ Hget). cbn -[getLeads addLead saveLeads newLead].
    rewrite (addLead_Ok _ _ _ _ _ (getLeads_saveLeads _ _)).
    cbn -[getLeads addLead saveLeads newLead].
    rewrite getLeads_saveLeads. cbn -[getLeads addLead saveLeads newLead].
    eexists. split; [done|]. cbn -[getLeads addLead saveLeads newLead].
    split; [apply getLeads_saveLeads|]. split; [done|]. split; [done|].
    split; [done|]. unfold mountEffect. cbn -[getLeads addLead saveLeads newLead].
    rewrite getLeads_saveLeads. cbn -[getLeads addLead saveLeads newLead].
    eexists. by split.
  - eexists. split; [done|]. cbn -[getLeads]. split; [done|]. split; [done|].
    split; [done|]. split; [done|]. unfold mountEffect. cbn -[getLeads].
    rewrite Hget. cbn -[getLeads]. eexists. by split.
Qed.

Lemma mountEffect_seeds_once_witness :
  ∃ a',
    mountEffect Samples.dice Samples.dice' 1000 1001 AppSamples.blank = Ok a' ∧
    getLeads (storage a') = Ok (leads a') ∧
    leads a' ≠ [] ∧
    (([] : list Lead) ≠ [] → leads a' = [] ∧ storage a' = storage AppSamples.blank) ∧
    (([] : list Lead) = [] →
     leads a' = [newLead seed_john Samples.dice' 1001;
                 newLead seed_sarah Samples.dice 1000]) ∧
    ∃ a'',
      mountEffect Samples.dice Samples.dice 5000 5000 a' = Ok a'' ∧
      leads a'' = leads a' ∧ storage a'' = storage a'.
Proof.
  apply (mountEffect_seeds_once Samples.dice Samples.dice' Samples.dice Samples.dice
           1000 1001 5000 5000 AppSamples.blank []).
  reflexivity.
Defined.

(** When the text generation throws, or the slot cannot be read,
    [handleSendAIReply] throws nothing: it leaves the slot and the shown
    leads as they are, shows the failure toast and clears the busy flag.
    After a thrown generation the selected lead is as before; after a failed
    write it already shows the reply that was not stored. *)
Theorem handleSendAIReply_failure sel (gen : Generation) (stamp : string) a :
  gen = GenThrows ∨ (∃ e, getLeads (storage a) = Throw e) →
  storage (handleSendAIReply sel gen stamp a) = storage a ∧
  leads (handleSendAIReply sel gen stamp a) = leads a ∧
  toast (handleSendAIReply sel gen stamp a)
  = Some {| message := "Failed to generate AI reply"; type := error |} ∧
  isSendingAIReply (handleSendAIReply sel gen stamp a) = false ∧
  (gen = GenThrows → selectedLead (handleSendAIReply sel gen stamp a) = selectedLead a) ∧
  (∀ text, gen = GenText text →
           ∃ reply, selectedLead (handleSendAIReply sel gen stamp a)
                    = Some (replied sel stamp reply)).
Proof.
  intros [->|[e Hget]].
  - by repeat split.
  - destruct gen as [|text]; [by repeat split|].
    unfold handleSendAIReply, updateLead. cbn -[getLeads replied].
    rewrite Hget. cbn -[replied]. repeat split; try done.
    intros text' [= <-]. by eexists.
Qed.

Lemma handleSendAIReply_failure_witness :
  storage (handleSendAIReply Samples.sarah (GenText (Some "Hello")) "1/1/2026"
             AppSamples.panel_garbled)
  = storage AppSamples.panel_garbled ∧
  leads (handleSendAIReply Samples.sarah (GenText (Some "Hello")) "1/1/2026"
           AppSamples.panel_garbled)
  = leads AppSamples.panel_garbled ∧
  toast (handleSendAIReply Samples.sarah (GenText (Some "Hello")) "1/1/2026"
           AppSamples.panel_garbled)
  = Some {| message := "Failed to generate AI reply"; type := error |} ∧
  isSendingAIReply (handleSendAIReply Samples.sarah (GenText (Some "Hello")) "1/1/2026"
                      AppSamples.panel_garbled) = false ∧
  (GenText (Some "Hello") = GenThrows →
   selectedLead (handleSendAIReply Samples.sarah (GenText (Some "Hello")) "1/1/2026"
                   AppSamples.panel_garbled)
   = selectedLead AppSamples.panel_garbled) ∧
  (∀ text, GenText (Some "Hello") = GenText text →
           ∃ reply, selectedLead (handleSendAIReply Samples.sarah (GenText (Some "Hello"))
                                    "1/1/2026" AppSamples.panel_garbled)
                    = Some (replied Samples.sarah "1/1/2026" reply)).
Proof.
  apply (handleSendAIReply_failure Samples.sarah (GenText (Some "Hello")) "1/1/2026"
           AppSamples.panel_garbled).
  right. exists SyntaxError. reflexivity.
Defined.

End Component.

Section ComponentEdits.
Import Part0 Part0.API Part0App.
Implicit Types (ls : gmap string (Text Lead)) (db : list Lead) (l sel : Lead).
Implicit Types (a : App).

Lemma prefix_append (s t : string) : String.prefix s (s +:+ t) = true.
Proof.
  induction s as [|c s IH]; [by destruct t|].
  change (String c s +:+ t) with (String c (s +:+ t)). simpl.
  destruct (Ascii.ascii_dec c c); [done|congruence].
Qed.

(** When the text generation returns and the slot can be read,
    [handleSendAIReply] writes the closure's lead over every stored lead of
    its id, as [Contacted] and with the reply, which is never empty,
    appended to its notes: the old notes are a prefix of the new ones.  It
    leaves [last_contacted], [id] and [timestamp] as they are, shows the
    stored leads and the success toast and clears the busy flag. *)
Theorem handleSendAIReply_success sel (text : option string) (stamp : string) a db :
  getLeads (storage a) = Ok db →
  ∃ reply updated,
    reply ≠ "" ∧
    (∀ t, text = Some t → t ≠ "" → reply = t) ∧
    updated = replied sel stamp reply ∧
    selectedLead (handleSendAIReply sel (GenText text) stamp a) = Some updated ∧
    getLeads (storage (handleSendAIReply sel (GenText text) stamp a))
    = Ok (leads (handleSendAIReply sel (GenText text) stamp a)) ∧
    leads (handleSendAIReply sel (GenText text) stamp a)
    = (λ l, if decide (id l = id updated) then updated else l) <$> db ∧
    toast (handleSendAIReply sel (GenText text) stamp a)
    = Some {| message := "AI Reply sent to " +:+ full_name sel; type := success |} ∧
    isSendingAIReply (handleSendAIReply sel (GenText text) stamp a) = false ∧
    status updated = Contacted ∧
    last_contacted updated = last_contacted sel ∧
    id updated = id sel ∧
    timestamp updated = timestamp sel ∧
    ∃ new, notes updated = Some new ∧
           String.prefix (or_str (notes sel) "") new = true.
Proof.
  intros Hget. do 2 eexists.
  split; [|split; [|split; [reflexivity|]]]; cycle 2.
  - unfold handleSendAIReply. cbn -[updateLead getLeads replied or_str].
    rewrite (updateLead_Ok _ _ _ Hget). cbn -[getLeads saveLeads replied or_str].
    split; [done|]. split; [apply getLeads_saveLeads|].
    repeat (split; [done|]). eexists. split; [done|]. apply prefix_append.
  - unfold or_str. destruct text as [t|]; [|done]. by case_decide.
  - intros t -> Ht. unfold or_str. by rewrite decide_False.
Qed.

Lemma handleSendAIReply_success_witness :
  ∃ reply updated,
    reply ≠ "" ∧
    (∀ t, Some "" = Some t → t ≠ "" → reply = t) ∧
    updated = replied Samples.sarah "1/1/2026" reply ∧
    selectedLead (handleSendAIReply Samples.sarah (GenText (Some "")) "1/1/2026"
                    AppSamples.panel) = Some updated ∧
    getLeads (storage (handleSendAIReply Samples.sarah (GenText (Some "")) "1/1/2026"
                         AppSamples.panel))
    = Ok (leads (handleSendAIReply Samples.sarah (GenText (Some "")) "1/1/2026"
                   AppSamples.panel)) ∧
    leads (handleSendAIReply Samples.sarah (GenText (Some "")) "1/1/2026" AppSamples.panel)
    = (λ l, if decide (id l = id updated) then updated else l) <$> [Samples.sarah] ∧
    toast (handleSendAIReply Samples.sarah (GenText (Some "")) "1/1/2026" AppSamples.panel)
    = Some {| message := "AI Reply sent to " +:+ full_name Samples.sarah;
              type := success |} ∧
    isSendingAIReply (handleSendAIReply Samples.sarah (GenText (Some "")) "1/1/2026"
                        AppSamples.panel) = false ∧
    status updated = Contacted ∧
    last_contacted updated = last_contacted Samples.sarah ∧
    id updated = id Samples.sarah ∧
    timestamp updated = timestamp Samples.sarah ∧
    ∃ new, notes updated = Some new ∧
           String.prefix (or_str (notes Samples.sarah) "") new = true.
Proof.
  apply (handleSendAIReply_success Samples.sarah (Some "") "1/1/2026" AppSamples.panel
           [Samples.sarah]).
  reflexivity.
Defined.




(** With a slot that cannot be read, the same three handlers let the
    exception escape after the panel was given the edit: the panel shows a
    change that is not stored. *)
Theorem detail_edits_unsaved sel (value : LeadStatus) (text : string) a (e : Exn) :
  getLeads (storage a) = Throw e →
  unsaved (with_status value sel) e a (onStatusChange sel value a) ∧
  unsaved (with_notes text sel) e a (onNotesChange sel text a) ∧
  unsaved (with_status Converted sel) e a (onMarkConverted sel a).
Proof.
  intros Hget. unfold onStatusChange, onNotesChange, onMarkConverted, updateLead.
  cbn -[getLeads with_status with_notes]. rewrite !Hget.
  by repeat split.
Qed.

Lemma detail_edits_unsaved_witness :
  unsaved (with_status Lost Samples.sarah) SyntaxError AppSamples.panel_garbled
    (onStatusChange Samples.sarah Lost AppSamples.panel_garbled) ∧
  unsaved (with_notes "call back" Samples.sarah) SyntaxError AppSamples.panel_garbled
    (onNotesChange Samples.sarah "call back" AppSamples.panel_garbled) ∧
  unsaved (with_status Converted Samples.sarah) SyntaxError AppSamples.panel_garbled
    (onMarkConverted Samples.sarah AppSamples.panel_garbled).
Proof.
  apply (detail_edits_unsaved Samples.sarah Lost "call back" AppSamples.panel_garbled
           SyntaxError).
  reflexivity.
Defined.

(** The component's [deleteLead] does nothing when the question is
    declined.  When it is confirmed and the slot can be read, the shown
    leads are the stored ones, which are the former ones without the id, and
    the detail panel never keeps a lead of the deleted id: a selection of
    that id is cleared, any other is kept. *)
Theorem deleteLead_clears_selection (i : string) a db :
  getLeads (storage a) = Ok db →
  deleteLead i false a = (a, None) ∧
  ∃ a',
    deleteLead i true a = (a', None) ∧
    getLeads (storage a') = Ok (leads a') ∧
    (∀ l, l ∈ leads a' ↔ l ∈ db ∧ id l ≠ i) ∧
    (∀ sel, selectedLead a' = Some sel ↔ selectedLead a = Some sel ∧ id sel ≠ i).
Proof.
  intros Hget. split; [done|].
  unfold deleteLead. rewrite (deleteLead_Ok _ _ _ Hget). eexists. split; [done|].
  split; [|split].
  - destruct (selected_is i a); apply getLeads_saveLeads.
  - intros l. destruct (selected_is i a); cbn; rewrite list_elem_of_filter; tauto.
  - intros sel. unfold selected_is.
    destruct (selectedLead a) as [s|] eqn:Hsel; cbn.
    + case_bool_decide as Hid; cbn; rewrite ?Hsel.
      * split; [done|]. intros [[= ->] Hne]. done.
      * split; [intros [= ->]; done|]. by intros [? _].
    + rewrite Hsel. split; [done|]. by intros [? _].
Qed.

Lemma deleteLead_clears_selection_witness :
  deleteLead "k3x9a7q2m" false AppSamples.panel = (AppSamples.panel, None) ∧
  ∃ a',
    deleteLead "k3x9a7q2m" true AppSamples.panel = (a', None) ∧
    getLeads (storage a') = Ok (leads a') ∧
    (∀ l, l ∈ leads a' ↔ l ∈ [Samples.sarah] ∧ id l ≠ "k3x9a7q2m") ∧
    (∀ sel, selectedLead a' = Some sel
            ↔ selectedLead AppSamples.panel = Some sel ∧ id sel ≠ "k3x9a7q2m").
Proof.
  apply (deleteLead_clears_selection "k3x9a7q2m" AppSamples.panel [Samples.sarah]).
  reflexivity.
Defined.

End ComponentEdits.

(** ** The backend of [index.tsx], continued *)

Section BackendMore.
Import Index Index.MockBackend IndexApp.
Implicit Types (ls : gmap string (Text Lead)) (all : list Lead) (l : Lead).

(** [updateStatus] returns [null] exactly when no stored lead has the id,
    and then it has written nothing: the slot, even a missing one, is as it
    was. *)
Theorem updateStatus_null_iff_unknown ls all (i : string) (s : LeadStatus)
    (now : Instant) :
  getLeads ls = Ok all →
  (i ∉ id <$> all → updateStatus i s now ls = Ok (None, ls)) ∧
  (∀ ls', updateStatus i s now ls = Ok (None, ls') → ls' = ls ∧ i ∉ id <$> all).
Proof.
  intros Hget. split.
  - intros Hout. apply (updateStatus_absent _ all); [done|].
    apply list_find_None, Forall_forall. intros l Hl Heq. apply Hout.
    rewrite <- Heq. by apply list_elem_of_fmap_2.
  - intros ls' Hnull.
    destruct (list_find (λ l, id l = i) all) as [[k l]|] eqn:Hfind.
    + rewrite (updateStatus_found _ _ _ _ _ _ _ Hget Hfind) in Hnull. discriminate.
    + rewrite (updateStatus_absent _ _ _ _ _ Hget Hfind) in Hnull.
      injection Hnull as <-. split; [done|].
      apply list_find_None in Hfind. rewrite Forall_forall in Hfind.
      intros (l & -> & Hl)%list_elem_of_fmap. by apply (Hfind l).
Qed.

Lemma updateStatus_null_iff_unknown_witness :
  ("nobody" ∉ id <$> [IndexSamples.elena; IndexSamples.mark] →
   updateStatus "nobody" Contacted 5000 IndexSamples.slot_seeded
   = Ok (None, IndexSamples.slot_seeded)) ∧
  (∀ ls', updateStatus "nobody" Contacted 5000 IndexSamples.slot_seeded = Ok (None, ls') →
          ls' = IndexSamples.slot_seeded ∧
          "nobody" ∉ id <$> [IndexSamples.elena; IndexSamples.mark]).
Proof.
  apply (updateStatus_null_iff_unknown IndexSamples.slot_seeded
           [IndexSamples.elena; IndexSamples.mark] "nobody" Contacted 5000).
  reflexivity.
Defined.

(** Two status updates of a stored lead in a row, the first to [Contacted]
    at [now1], the second to [s] at [now2]: a second [Contacted] moves
    [last_contacted] to [now2]; any other status keeps [last_contacted] at
    [now1].  No status refuses to follow [Contacted]. *)
Theorem last_contacted_refreshed_or_kept ls all (i : string) (s : LeadStatus)
    (now1 now2 : Instant) :
  getLeads ls = Ok all →
  i ∈ id <$> all →
  ∃ l1 ls1 l2 ls2,
    updateStatus i Contacted now1 ls = Ok (Some l1, ls1) ∧
    updateStatus i s now2 ls1 = Ok (Some l2, ls2) ∧
    status l2 = s ∧
    last_contacted l2 = Some (if decide (s = Contacted) then now2 else now1) ∧
    same_but_status l1 l2.
Proof.
  intros Hget Hin. destruct (find_present all i Hin) as (k & l & Hfind).
  do 4 eexists.
  split; [by apply (updateStatus_found _ all)|].
  split; [apply (updateStatus_found _ (<[k := touch Contacted now1 l]> all)
                   _ _ _ k (touch Contacted now1 l));
          [apply backend_getLeads_saveLeads|by apply find_after_touch]|].
  split; [apply touch_status|].
  split; [|apply touch_frame].
  rewrite !touch_last_contacted. by destruct (decide (s = Contacted)).
Qed.

Lemma last_contacted_refreshed_or_kept_witness :
  ∃ l1 ls1 l2 ls2,
    updateStatus "m4r7k0g5u" Contacted 5000 IndexSamples.slot_seeded = Ok (Some l1, ls1) ∧
    updateStatus "m4r7k0g5u" Converted 6000 ls1 = Ok (Some l2, ls2) ∧
    status l2 = Converted ∧
    last_contacted l2 = Some (if decide (Converted = Contacted) then 6000 else 5000) ∧
    same_but_status l1 l2.
Proof.
  apply (last_contacted_refreshed_or_kept IndexSamples.slot_seeded
           [IndexSamples.elena; IndexSamples.mark] "m4r7k0g5u" Converted 5000 6000).
  - reflexivity.
  - simpl. right. left.
Defined.

(** Once its wait is over, [triggerFollowup] resolves to [true] whenever the
    slot can be read, whether a lead of the id exists or not: for an unknown
    id nothing is written, for a known one the first lead of the id is
    stored [Contacted] at that instant. *)
Theorem triggerFollowup_resolves_true ls all (i : string) (now : Instant) :
  getLeads ls = Ok all →
  ∃ ls',
    triggerFollowup i now ls = Ok (true, ls') ∧
    (i ∉ id <$> all → ls' = ls) ∧
    (i ∈ id <$> all →
     ∃ k l, list_find (λ l, id l = i) all = Some (k, l) ∧
            getLeads ls' = Ok (<[k := touch Contacted now l]> all) ∧
            status (touch Contacted now l) = Contacted ∧
            last_contacted (touch Contacted now l) = Some now).
Proof.
  intros Hget. unfold triggerFollowup.
  destruct (list_find (λ l, id l = i) all) as [[k l]|] eqn:Hfind.
  - rewrite (updateStatus_found _ _ _ _ _ _ _ Hget Hfind). eexists. split; [done|].
    split.
    + intros Hout. destruct Hout. apply list_find_Some in Hfind as (Hk & <- & _).
      apply list_elem_of_fmap_2. by eapply list_elem_of_lookup_2.
    + intros _. exists k, l. split; [done|].
      split; [apply backend_getLeads_saveLeads|].
      split; [apply touch_status|by rewrite touch_last_contacted].
  - rewrite (updateStatus_absent _ _ _ _ _ Hget Hfind). eexists. split; [done|].
    split; [done|]. intros Hin. destruct (find_present all i Hin) as (k & l & Hfound).
    congruence.
Qed.

Lemma triggerFollowup_resolves_true_witness :
  ∃ ls',
    triggerFollowup "nobody" 5000 IndexSamples.slot_seeded = Ok (true, ls') ∧
    ("nobody" ∉ id <$> [IndexSamples.elena; IndexSamples.mark] →
     ls' = IndexSamples.slot_seeded) ∧
    ("nobody" ∈ id <$> [IndexSamples.elena; IndexSamples.mark] →
     ∃ k l, list_find (λ l, id l = "nobody") [IndexSamples.elena; IndexSamples.mark]
            = Some (k, l) ∧
            getLeads ls'
            = Ok (<[k := touch Contacted 5000 l]> [IndexSamples.elena; IndexSamples.mark]) ∧
            status (touch Contacted 5000 l) = Contacted ∧
            last_contacted (touch Contacted 5000 l) = Some 5000).
Proof.
  apply (triggerFollowup_resolves_true IndexSamples.slot_seeded
           [IndexSamples.elena; IndexSamples.mark] "nobody" 5000).
  reflexivity.
Defined.

End BackendMore.

(** ** The component of [index.tsx], continued *)

Section Loading.
Import Index Index.MockBackend IndexApp.
Implicit Types (ls : gmap string (Text Lead)) (db : list Lead) (l : Lead).
Implicit Types (a b : App).

(** The load effect, run on the component as it is first made, succeeds on
    every readable slot and gives a state from which the scheduler model
    starts.  A slot with leads is shown and not written; a slot without gets
    the four demo leads, each captured in front of the ones before it, so
    that the last of the list is shown first. *)
Theorem loadEffect_mounts (draw : nat → Entropy * Instant) (now : Instant) ls db :
  getLeads ls = Ok db →
  ∃ a,
    loadEffect draw (initial now ls) = Ok a ∧
    mounted a ∧
    Reachable a ∧
    (db ≠ [] → leads a = db ∧ storage a = ls) ∧
    (db = [] →
     leads a
     = [ newLead (demo "growth_expert" "Elena Rose" Instagram "Ad" New)
           (draw 3%nat).1 (draw 3%nat).2;
         newLead (demo "tech_guru" "Mark Miller" Instagram "Comment" New)
           (draw 2%nat).1 (draw 2%nat).2;
         newLead (demo "sarah_biz" "Sarah Smith" Facebook "DM" Contacted)
           (draw 1%nat).1 (draw 1%nat).2;
         newLead (demo "alex_design" "Alex Johnson" Instagram "Comment" Converted)
           (draw 0%nat).1 (draw 0%nat).2 ]).
Proof.
  intros Hget. unfold loadEffect. cbn -[getLeads captureEach demoLeads].
  rewrite Hget. cbn -[getLeads captureEach demoLeads].
  destruct db as [|l db].
  - unfold demoLeads. cbn -[getLeads captureLead saveLeads newLead demo].
    rewrite (captureLead_Ok _ _ _ _ _ Hget).
    cbn -[getLeads captureLead saveLeads newLead demo].
    do 3 (rewrite (captureLead_Ok _ _ _ _ _ (backend_getLeads_saveLeads _ _));
          cbn -[getLeads captureLead saveLeads newLead demo]).
    rewrite backend_getLeads_saveLeads. cbn -[getLeads saveLeads newLead demo].
    eexists. split; [done|].
    split; [split; [apply backend_getLeads_saveLeads|done]|].
    split; [apply ReachMounted; split; [apply backend_getLeads_saveLeads|done]|].
    by split.
  - eexists. split; [done|].
    assert (Hm : mounted (show (l :: db) ls (initial now ls))) by (by split).
    split; [exact Hm|]. split; [by apply ReachMounted|]. by split.
Qed.

Lemma loadEffect_mounts_witness :
  ∃ a,
    loadEffect (λ _, (Samples.dice, 1000)) (initial 1000 ∅) = Ok a ∧
    mounted a ∧
    Reachable a ∧
    (([] : list Lead) ≠ [] → leads a = [] ∧ storage a = ∅) ∧
    (([] : list Lead) = [] →
     leads a
     = [ newLead (demo "growth_expert" "Elena Rose" Instagram "Ad" New)
           ((λ _ : nat, (Samples.dice, 1000)) 3%nat).1
           ((λ _ : nat, (Samples.dice, 1000)) 3%nat).2;
         newLead (demo "tech_guru" "Mark Miller" Instagram "Comment" New)
           ((λ _ : nat, (Samples.dice, 1000)) 2%nat).1
           ((λ _ : nat, (Samples.dice, 1000)) 2%nat).2;
         newLead (demo "sarah_biz" "Sarah Smith" Facebook "DM" Contacted)
           ((λ _ : nat, (Samples.dice, 1000)) 1%nat).1
           ((λ _ : nat, (Samples.dice, 1000)) 1%nat).2;
         newLead (demo "alex_design" "Alex Johnson" Instagram "Comment" Converted)
           ((λ _ : nat, (Samples.dice, 1000)) 0%nat).1
           ((λ _ : nat, (Samples.dice, 1000)) 0%nat).2 ]).
Proof.
  apply (loadEffect_mounts (λ _, (Samples.dice, 1000)) 1000 ∅ []).
  reflexivity.
Defined.

End Loading.

Section SchedulerMore.
Import Index Index.MockBackend IndexApp.
Implicit Types (ls : gmap string (Text Lead)) (db : list Lead) (l : Lead).
Implicit Types (a b : App) (evs : list (Instant * Event)).

Lemma tick_storage a : storage (tick a) = storage a.
Proof.
  destruct (list_find (λ l, status l = New) (leads a)) as [[k l]|] eqn:Hfind;
    [|by rewrite tick_idle].
  by destruct (tick_selects a k l Hfind) as (_ & _ & _ & -> & _).
Qed.

Lemma shown_as_itself db : Forall2 shown_as db db.
Proof. apply Forall_Forall2_diag, Forall_forall. intros l _. by left. Qed.

(** One callback keeps the shown leads the stored ones but for marks. *)
Lemma step_keeps_view a now ev a' db :
  Step a now ev a' →
  getLeads (storage a) = Ok db →
  Forall2 shown_as (leads a) db →
  ∃ db', getLeads (storage a') = Ok db' ∧ Forall2 shown_as (leads a') db'.
Proof.
  intros Hstep Hget Hview.
  destruct Hstep as [d _ Hint _|t b _ Ht _ Hfire|i s b _ Hrun|leadData rnd b _ Hrun|_].
  - exists db. rewrite tick_storage. split; [done|].
    destruct (list_find (λ l, status l = New) (leads (rearm d (at_time now a))))
      as [[k l]|] eqn:Hfind; [|by rewrite tick_idle].
    destruct (tick_selects _ k l Hfind) as (-> & _).
    apply list_find_Some in Hfind as (Hk & Hnew & _). cbn in Hk |- *.
    destruct (Forall2_lookup_l _ _ _ _ _ Hview Hk) as (dl & Hdl & [->|[_ ->]]);
      [|discriminate].
    rewrite <- (list_insert_id db k dl Hdl) at 1.
    apply Forall2_insert; [done|]. by right.
  - destruct (onTimeout_spec (target t) (consume (handle t) (at_time now a)) db Hget)
      as (a' & Hrun & _ & _ & _ & _ & _ & Hcases).
    rewrite Hrun in Hfire. injection Hfire as <-.
    destruct Hcases as [(k & l & _ & Hget' & -> & _)|(_ & -> & -> & _)].
    + eexists. split; [done|apply shown_as_itself].
    + by exists db.
  - destruct (handleUpdateStatus_spec i s (at_time now a) db Hget)
      as (a' & db' & Hrun' & _ & _ & _ & _ & _ & Hget' & Hleads & _).
    rewrite Hrun' in Hrun. injection Hrun as <-.
    exists db'. split; [done|]. rewrite Hleads. apply shown_as_itself.
  - destruct (onCapture_spec leadData rnd (at_time now a) db Hget)
      as (a' & Hrun' & _ & _ & _ & _ & _ & Hget' & Hleads).
    rewrite Hrun' in Hrun. injection Hrun as <-.
    eexists. split; [done|]. rewrite Hleads. apply shown_as_itself.
  - by exists db.
Qed.

(** In every state the component can be in, the slot can be read and the
    shown leads are the stored leads, one for one and in order, except that
    a stored [New] lead may be shown [Processing]: the mark of a tick is
    never stored, and nothing else ever separates what is shown from what is
    stored. *)
Theorem shown_is_stored_but_for_marks a :
  Reachable a →
  ∃ db,
    getLeads (storage a) = Ok db ∧
    Forall2 shown_as (leads a) db ∧
    length (leads a) = length db ∧
    id <$> leads a = id <$> db.
Proof.
  intros Hreach.
  assert (Hview : ∃ db, getLeads (storage a) = Ok db ∧ Forall2 shown_as (leads a) db).
  { induction Hreach as [a (Hget & _)|a now ev a' _ IH Hstep].
    - exists (leads a). split; [done|apply shown_as_itself].
    - destruct IH as (db & Hget & Hview). by eapply step_keeps_view. }
  destruct Hview as (db & Hget & Hview). exists db.
  split; [done|]. split; [done|]. split; [by eapply Forall2_length|].
  clear Hget Hreach. induction Hview as [|s d ss ds Hsd _ IH]; [done|].
  cbn. f_equal; [|done]. by destruct Hsd as [->|[_ ->]].
Qed.

(** Every callback that reaches the backend, a timeout, a status button or a
    capture, ends by showing exactly what is stored: the [Processing] marks
    that ticks had put on other leads are gone from the screen, although
    their timeouts are still pending. *)
Theorem backend_callbacks_resync a now ev a' :
  Consistent a →
  Step a now ev a' →
  ev ≠ EvTick →
  ev ≠ EvToggle →
  getLeads (storage a') = Ok (leads a') ∧
  ∀ t, t ∈ timeouts a → ev ≠ EvTimeout (handle t) → t ∈ timeouts a'.
Proof.
  intros Hc Hstep Htick Htoggle.
  split; [|intros t Ht Hev; by eapply step_keeps_pending].
  pose proof Hc as ((db & Hget & _ & Htargets) & _).
  destruct Hstep as [d _ Hint _|t b _ Ht _ Hfire|i s b _ Hrun|leadData rnd b _ Hrun|_];
    [done| | | |done].
  - destruct (onTimeout_spec (target t) (consume (handle t) (at_time now a)) db Hget)
      as (a' & Hrun & _ & _ & _ & _ & _ & Hcases).
    rewrite Hrun in Hfire. injection Hfire as <-.
    destruct Hcases as [(k & l & _ & Hget' & -> & _)|(Hnone & _)]; [done|].
    destruct (find_present db (target t) (Htargets t Ht)) as (k & l & Hfind). congruence.
  - destruct (handleUpdateStatus_spec i s (at_time now a) db Hget)
      as (a' & db' & Hrun' & _ & _ & _ & _ & _ & Hget' & Hleads & _).
    rewrite Hrun' in Hrun. injection Hrun as <-. by rewrite Hleads.
  - destruct (onCapture_spec leadData rnd (at_time now a) db Hget)
      as (a' & Hrun' & _ & _ & _ & _ & _ & Hget' & Hleads).
    rewrite Hrun' in Hrun. injection Hrun as <-. by rewrite Hleads.
Qed.

Lemma backend_callbacks_resync_witness :
  ∃ a',
    Step (tick (rearm 10000 (at_time 10000 IndexSamples.app0))) 11000
      (EvUpdateStatus "m4r7k0g5u" Converted) a' ∧
    getLeads (storage a') = Ok (leads a') ∧
    ∀ t, t ∈ timeouts (tick (rearm 10000 (at_time 10000 IndexSamples.app0))) →
         EvUpdateStatus "m4r7k0g5u" Converted ≠ EvTimeout (handle t) →
         t ∈ timeouts a'.
Proof.
  assert (Hstep : ∃ a', Step (tick (rearm 10000 (at_time 10000 IndexSamples.app0))) 11000
                          (EvUpdateStatus "m4r7k0g5u" Converted) a').
  { eexists. apply StepUpdateStatus; [simpl; lia|vm_compute; reflexivity]. }
  destruct Hstep as [a' Hstep]. exists a'. split; [exact Hstep|].
  apply (backend_callbacks_resync (tick (rearm 10000 (at_time 10000 IndexSamples.app0)))
           11000 (EvUpdateStatus "m4r7k0g5u" Converted) a').
  - apply tick_consistent, rearm_consistent; [|reflexivity].
    apply at_time_consistent, mounted_consistent. repeat split; reflexivity.
  - exact Hstep.
  - discriminate.
  - discriminate.
Defined.

End SchedulerMore.

(** ** Counts and search *)

Section Presentation.
Import Index IndexApp.
Implicit Types (l : Lead) (a : App).

(** Assigning at a position moves the count of a property by what the old
    and the new element say. *)
Lemma count_insert (P : Lead → Prop) `{!∀ x, Decision (P x)} (leads : list Lead) k x y :
  leads !! k = Some x →
  (length (filter P (<[k := y]> leads)) + (if decide (P x) then 1 else 0)
   = length (filter P leads) + (if decide (P y) then 1 else 0))%nat.
Proof.
  revert k. induction leads as [|z leads IH]; intros k Hk; [done|].
  destruct k as [|k]; cbn in Hk.
  - injection Hk as ->. change (<[0%nat := y]> (x :: leads)) with (y :: leads).
    rewrite !filter_cons.
    destruct (decide (P x)), (decide (P y)); cbn; lia.
  - specialize (IH k Hk).
    change (<[S k := y]> (z :: leads)) with (z :: <[k := y]> leads).
    rewrite !filter_cons.
    destruct (decide (P z)); cbn; lia.
Qed.

Lemma counts_bounded (leads : list Lead) :
  (stats_new leads + stats_contacted leads + stats_converted leads
   ≤ stats_total leads)%nat.
Proof.
  unfold stats_new, stats_contacted, stats_converted, stats_total.
  induction leads as [|l leads IH]; [done|].
  rewrite !filter_cons. destruct (status l) eqn:Hs;
    repeat (case_decide; try congruence); cbn; lia.
Qed.

(** The three status counts of [stats] never exceed its total.  A tick that
    finds a [New] lead lowers the count of [New] leads by exactly one and
    leaves the total and the counts of [Contacted] and [Converted] leads as
    they are: the lead it marked is counted in none of the three. *)
Theorem tick_moves_one_out_of_new a k l :
  list_find (λ l, status l = New) (leads a) = Some (k, l) →
  stats_total (leads (tick a)) = stats_total (leads a) ∧
  S (stats_new (leads (tick a))) = stats_new (leads a) ∧
  stats_contacted (leads (tick a)) = stats_contacted (leads a) ∧
  stats_converted (leads (tick a)) = stats_converted (leads a) ∧
  (stats_new (leads (tick a)) + stats_contacted (leads (tick a))
   + stats_converted (leads (tick a)) < stats_total (leads (tick a)))%nat.
Proof.
  intros Hfind. destruct (tick_selects a k l Hfind) as (Hleads & _).
  apply list_find_Some in Hfind as (Hk & Hnew & _). rewrite Hleads.
  unfold stats_total, stats_new, stats_contacted, stats_converted.
  pose proof (count_insert (λ l, status l = New) (leads a) k l
                (set_status Processing l) Hk) as Hn.
  pose proof (count_insert (λ l, status l = Contacted) (leads a) k l
                (set_status Processing l) Hk) as Hc.
  pose proof (count_insert (λ l, status l = Converted) (leads a) k l
                (set_status Processing l) Hk) as Hv.
  cbn in Hn, Hc, Hv. rewrite Hnew in Hn, Hc, Hv.
  rewrite decide_True in Hn by done. rewrite !decide_False in Hn by done.
  rewrite !decide_False in Hc by done. rewrite !decide_False in Hv by done.
  pose proof (counts_bounded (leads a)) as Hb.
  unfold stats_total, stats_new, stats_contacted, stats_converted in Hb.
  rewrite length_insert. repeat split; lia.
Qed.

Lemma tick_moves_one_out_of_new_witness :
  stats_total (leads (tick IndexSamples.app0)) = stats_total (leads IndexSamples.app0) ∧
  S (stats_new (leads (tick IndexSamples.app0))) = stats_new (leads IndexSamples.app0) ∧
  stats_contacted (leads (tick IndexSamples.app0))
  = stats_contacted (leads IndexSamples.app0) ∧
  stats_converted (leads (tick IndexSamples.app0))
  = stats_converted (leads IndexSamples.app0) ∧
  (stats_new (leads (tick IndexSamples.app0))
   + stats_contacted (leads (tick IndexSamples.app0))
   + stats_converted (leads (tick IndexSamples.app0))
   < stats_total (leads (tick IndexSamples.app0)))%nat.
Proof.
  apply (tick_moves_one_out_of_new IndexSamples.app0 0%nat IndexSamples.elena).
  reflexivity.
Defined.

(** Every text includes the empty text. *)
Lemma includes_empty (s : string) : includes s "" = true.
Proof. unfold includes. by destruct s. Qed.

Lemma filter_sublist {A} (f : A → bool) (xs : list A) : List.filter f xs `sublist_of` xs.
Proof.
  induction xs as [|x xs IH]; [constructor|]. cbn.
  destruct (f x); by constructor.
Qed.

(** [filteredLeads] of [index.tsx] shows leads of the collection, in their
    order, and only ones of the chosen status and platform; with both
    choices on ['All'] and an empty search it shows every lead, given that
    lower-casing the empty text gives the empty text. *)
Theorem filteredLeads_selects (toLowerCase : string → string)
    (filter : option LeadStatus) (platformFilter : option Platform) (search : string)
    (leads : list Lead) :
  toLowerCase "" = "" →
  filteredLeads toLowerCase filter platformFilter search leads `sublist_of` leads ∧
  (∀ l, l ∈ filteredLeads toLowerCase filter platformFilter search leads →
        (∀ s, filter = Some s → status l = s) ∧
        (∀ p, platformFilter = Some p → source_platform l = p)) ∧
  filteredLeads toLowerCase None None "" leads = leads.
Proof.
  intros Hempty. split; [apply filter_sublist|]. split.
  - intros l Hl. apply list_elem_of_In, filter_In in Hl as [_ Hm].
    unfold matches in Hm. apply andb_prop in Hm as [Hm _].
    apply andb_prop in Hm as [Hs Hp]. split.
    + intros s ->. by apply bool_decide_eq_true in Hs.
    + intros p ->. by apply bool_decide_eq_true in Hp.
  - unfold filteredLeads. induction leads as [|l leads IH]; [done|]. cbn.
    rewrite Hempty, includes_empty. cbn. by rewrite IH.
Qed.

Lemma filteredLeads_selects_witness :
  filteredLeads AppSamples.lower (Some New) None "ELENA"
    [IndexSamples.elena; IndexSamples.mark]
  `sublist_of` [IndexSamples.elena; IndexSamples.mark] ∧
  (∀ l, l ∈ filteredLeads AppSamples.lower (Some New) None "ELENA"
              [IndexSamples.elena; IndexSamples.mark] →
        (∀ s, Some New = Some s → status l = s) ∧
        (∀ p, None = Some p → source_platform l = p)) ∧
  filteredLeads AppSamples.lower None None "" [IndexSamples.elena; IndexSamples.mark]
  = [IndexSamples.elena; IndexSamples.mark].
Proof.
  apply (filteredLeads_selects AppSamples.lower (Some New) None "ELENA"
           [IndexSamples.elena; IndexSamples.mark]).
  reflexivity.
Defined.

(** The search of the sample finds the lead whatever the case of the letters. *)
Example search_ignores_case :
  filteredLeads AppSamples.lower None None "ELENA" [IndexSamples.elena; IndexSamples.mark]
  = [IndexSamples.elena].
Proof. reflexivity. Qed.

(** [filteredLeads] of [part_000] shows leads of the collection, in their
    order, and all of them for an empty search, given that lower-casing the
    empty text gives the empty text; it never looks at the e-mail address. *)
Theorem part0_filteredLeads_selects (toLowerCase : string → string) (search : string)
    (leads : list Part0.Lead) :
  toLowerCase "" = "" →
  Part0App.filteredLeads toLowerCase search leads `sublist_of` leads ∧
  Part0App.filteredLeads toLowerCase "" leads = leads ∧
  (∀ x y : Part0.Lead, x ∈ Part0App.filteredLeads toLowerCase search leads →
           y ∈ leads →
           Part0.full_name y = Part0.full_name x →
           Part0.username y = Part0.username x →
           y ∈ Part0App.filteredLeads toLowerCase search leads).
Proof.
  intros Hempty. unfold Part0App.filteredLeads. split; [apply sublist_filter|]. split.
  - induction leads as [|x leads IH]; [done|].
    rewrite filter_cons_True; [by rewrite IH|].
    by rewrite Hempty, includes_empty.
  - intros x y [Hm _]%list_elem_of_filter Hy Hname Huser.
    apply list_elem_of_filter. split; [|done]. by rewrite Hname, Huser.
Qed.

Lemma part0_filteredLeads_selects_witness :
  Part0App.filteredLeads AppSamples.lower "sarah" [Samples.sarah; Samples.ghost]
  `sublist_of` [Samples.sarah; Samples.ghost] ∧
  Part0App.filteredLeads AppSamples.lower "" [Samples.sarah; Samples.ghost]
  = [Samples.sarah; Samples.ghost] ∧
  (∀ x y : Part0.Lead, x ∈ Part0App.filteredLeads AppSamples.lower "sarah"
                 [Samples.sarah; Samples.ghost] →
           y ∈ [Samples.sarah; Samples.ghost] →
           Part0.full_name y = Part0.full_name x →
           Part0.username y = Part0.username x →
           y ∈ Part0App.filteredLeads AppSamples.lower "sarah"
                  [Samples.sarah; Samples.ghost]).
Proof.
  apply (part0_filteredLeads_selects AppSamples.lower "sarah"
           [Samples.sarah; Samples.ghost]).
  reflexivity.
Defined.

End Presentation.

(** ** A lead in flight (C2, C3, C4) *)

Section InFlightFacts.
Import Index Index.MockBackend IndexApp InFlight.
Implicit Types (ls : gmap string (Text Lead)) (db : list Lead) (l d : Lead).
Implicit Types (a b : App) (t : Timeout) (evs : list (Instant * Event)).

Lemma same_but_status_refl l : same_but_status l l.
Proof. by repeat split. Qed.

Lemma same_but_status_trans l d d' :
  same_but_status l d → same_but_status d d' → same_but_status l d'.
Proof.
  unfold same_but_status.
  intros (? & ? & ? & ? & ? & ? & ? & ? & ? & ?) (? & ? & ? & ? & ? & ? & ? & ? & ? & ?).
  repeat split; congruence.
Qed.

Lemma mark_frame l : same_but_status l (set_status Processing l).
Proof. by repeat split. Qed.

(** In every state the component can be in, the shown leads are the stored
    ones but for marks. *)
Lemma reachable_view a :
  Reachable a → ∃ db, getLeads (storage a) = Ok db ∧ Forall2 shown_as (leads a) db.
Proof.
  induction 1 as [a (Hget & _)|a now ev a' _ IH Hstep].
  - exists (leads a). split; [done|apply shown_as_itself].
  - destruct IH as (db & Hget & Hview). by eapply step_keeps_view.
Qed.

(** The lead a tick selects is stored as it is shown. *)
Lemma selected_is_stored a k l :
  Reachable a →
  list_find (λ l, status l = New) (leads a) = Some (k, l) →
  stored_as l a.
Proof.
  intros Hreach (Hk & Hnew & _)%list_find_Some.
  destruct (reachable_view a Hreach) as (db & Hget & Hview).
  destruct (Forall2_lookup_l _ _ _ _ _ Hview Hk) as (d & Hd & [->|[_ ->]]);
    [|discriminate].
  exists db, k, d. split; [done|]. split; [done|apply same_but_status_refl].
Qed.

(** An assignment of [updateStatus] somewhere keeps a stored lead the lead
    it is. *)
Lemma stored_touch db (p k : nat) l d l0 (s : LeadStatus) (now : Instant) :
  db !! p = Some d →
  same_but_status l d →
  db !! k = Some l0 →
  ∃ d', <[k := touch s now l0]> db !! p = Some d' ∧ same_but_status l d'.
Proof.
  intros Hp Hsame Hk. destruct (decide (p = k)) as [->|Hne].
  - assert (l0 = d) as -> by congruence. exists (touch s now d). split.
    + apply list_lookup_insert_eq. by eapply lookup_lt_Some.
    + eapply same_but_status_trans; [done|apply touch_frame].
  - exists d. split; [|done]. by rewrite list_lookup_insert_ne.
Qed.

(** What a status button leaves in the slot. *)
Lemma handleUpdateStatus_store (i : string) (s : LeadStatus) b db a' :
  getLeads (storage b) = Ok db →
  handleUpdateStatus i s b = Ok a' →
  (∃ (k : nat) l0, db !! k = Some l0 ∧
                   getLeads (storage a') = Ok (<[k := touch s (clock b) l0]> db))
  ∨ getLeads (storage a') = Ok db.
Proof.
  intros Hget. unfold handleUpdateStatus.
  destruct (list_find (λ l, id l = i) db) as [[k l0]|] eqn:Hfind.
  - rewrite (updateStatus_found _ _ _ _ _ _ _ Hget Hfind). cbn -[getLeads saveLeads].
    rewrite backend_getLeads_saveLeads. cbn -[getLeads saveLeads].
    intros [= <-]. cbn -[getLeads saveLeads]. left. exists k, l0.
    split; [by apply list_find_Some in Hfind as (? & _)|].
    apply backend_getLeads_saveLeads.
  - rewrite (updateStatus_absent _ _ _ _ _ Hget Hfind). cbn -[getLeads saveLeads].
    rewrite Hget. cbn -[getLeads saveLeads]. intros [= <-]. by right.
Qed.

(** No callback makes a stored lead another lead. *)
Lemma step_keeps_stored l a now ev a' : Step a now ev a' → stored_as l a → stored_as l a'.
Proof.
  intros Hstep (db & p & d & Hget & Hp & Hsame).
  destruct Hstep as [d0 _ Hint _|t b _ Ht _ Hfire|i s b _ Hrun|leadData rnd b _ Hrun|_].
  - exists db, p, d. by rewrite tick_storage.
  - destruct (onTimeout_spec (target t) (consume (handle t) (at_time now a)) db Hget)
      as (a' & Hrun & _ & _ & _ & _ & _ & Hcases).
    rewrite Hrun in Hfire. injection Hfire as <-.
    destruct Hcases as [(k & l0 & Hfind & Hget' & _)|(_ & Hstorage & _)].
    + apply list_find_Some in Hfind as (Hk & _).
      destruct (stored_touch db p k l d l0 Contacted now Hp Hsame Hk) as (d' & Hd' & Hs').
      by exists (<[k := touch Contacted now l0]> db), p, d'.
    + exists db, p, d. by rewrite Hstorage.
  - destruct (handleUpdateStatus_store i s (at_time now a) db b Hget Hrun)
      as [(k & l0 & Hk & Hget')|Hget'].
    + destruct (stored_touch db p k l d l0 s now Hp Hsame Hk) as (d' & Hd' & Hs').
      by exists (<[k := touch s now l0]> db), p, d'.
    + by exists db, p, d.
  - destruct (onCapture_spec leadData rnd (at_time now a) db Hget)
      as (a' & Hrun' & _ & _ & _ & _ & _ & Hget' & _).
    rewrite Hrun' in Hrun. injection Hrun as <-.
    by exists (newLead leadData rnd now :: db), (S p), d.
  - by exists db, p, d.
Qed.

Lemma run_keeps_stored l a evs a' : Run a evs a' → stored_as l a → stored_as l a'.
Proof.
  induction 1 as [a|a now ev a1 evs a2 Hstep _ IH]; [done|].
  intros Hs. apply IH. by eapply step_keeps_stored.
Qed.

(** A timeout stores the ids there were, in their order. *)
Lemma timeout_keeps_ids a now (h : nat) a' db :
  Step a now (EvTimeout h) a' →
  getLeads (storage a) = Ok db →
  ∃ db', getLeads (storage a') = Ok db' ∧ id <$> db' = id <$> db.
Proof.
  intros Hstep Hget. inversion Hstep as [|t b _ Ht _ Hfire Hev| | |]; subst b.
  destruct (onTimeout_spec (target t) (consume (handle t) (at_time now a)) db Hget)
    as (a'' & Hrun & _ & _ & _ & _ & _ & Hcases).
  rewrite Hrun in Hfire. injection Hfire as <-.
  destruct Hcases as [(k & l0 & Hfind & Hget' & _)|(_ & Hstorage & _)].
  - apply list_find_Some in Hfind as (Hk & _).
    exists (<[k := touch Contacted now l0]> db). split; [done|]. by apply touch_ids.
  - exists db. by rewrite Hstorage.
Qed.

(** A pending timeout for a lead stored under an id of its own contacts that
    lead. *)
Lemma in_flight_contacts a t l :
  Consistent a →
  t ∈ timeouts a →
  target t = id l →
  stored_as l a →
  contacts l t a.
Proof.
  intros Hc Ht Htarget Hstored db now a' Hget Hsole Hstep.
  destruct (pending_completes a t Hc Ht) as (_ & _ & Hdone).
  destruct (Hdone now a' Hstep) as (_ & _ & (Hget' & k0 & l0 & Hfind & Hst & Hlc) & _).
  destruct (step_keeps_stored l a now _ a' Hstep Hstored) as (db' & p & d & Hgetd & Hp & Hsame).
  assert (db' = leads a') as -> by congruence.
  destruct (timeout_keeps_ids a now _ a' db Hstep Hget) as (db'' & Hget'' & Hids).
  assert (db'' = leads a') as -> by congruence.
  rewrite <- Hids in Hsole.
  apply list_find_Some in Hfind as (Hk0 & Hid0 & _).
  assert (Hidd : id d = id l) by (by destruct Hsame as (? & _)).
  assert (Hat : ∀ (j : nat) y, leads a' !! j = Some y → id y = id l → j = p).
  { intros j y Hj Hy. apply Hsole.
    - by rewrite list_lookup_fmap, Hj, <- Hy.
    - by rewrite list_lookup_fmap, Hp, <- Hidd. }
  assert (k0 = p) as -> by (apply (Hat k0 l0 Hk0); congruence).
  assert (l0 = d) as -> by congruence.
  split; [done|]. by exists p, d.
Qed.


End InFlightFacts.

Section InFlightClaims.
Import Index Index.MockBackend IndexApp InFlight.
Implicit Types (ls : gmap string (Text Lead)) (db : list Lead) (l d : Lead).
Implicit Types (a b : App) (t : Timeout) (evs : list (Instant * Event)).


(** C2 (amended).  When a tick runs at instant [now] in a state the
    component can be in and the first [New] lead is [l], at position [k]:
    after the tick that position shows [l] with status [Processing], every
    other position is untouched, the slot is not written, and a timeout for
    the id of [l] is pending, due 3000 ms after [now].  Whatever callbacks
    run next, short of that timeout itself, it stays pending; once due it
    can run; when it runs, [updateStatus] has made the first stored lead
    carrying that id [Contacted] with [last_contacted] at the instant of
    the run, saved in the slot and shown; and when exactly one stored lead
    carries that id, that lead is [l] itself, [Contacted]. *)
Theorem tick_then_contacted a now a1 (k : nat) l :
  Reachable a →
  Step a now EvTick a1 →
  list_find (λ l, status l = New) (leads a) = Some (k, l) →
  (∃ l', leads a1 !! k = Some l' ∧ status l' = Processing ∧
         same_but_status l l' ∧ last_contacted l' = last_contacted l) ∧
  (∀ j : nat, j ≠ k → leads a1 !! j = leads a !! j) ∧
  storage a1 = storage a ∧
  due (automation_timeout a now l) = now + 3000 ∧
  target (automation_timeout a now l) = id l ∧
  ∀ evs a2,
    Run a1 evs a2 →
    ¬ fires (handle (automation_timeout a now l)) evs →
    completes (automation_timeout a now l) a2 ∧
    contacts l (automation_timeout a now l) a2.
Proof.
  intros Hreach Hstep Hfind.
  destruct (tick_step a now a1 k l Hstep Hfind) as (Hleads & Hstorage & Hpending).
  pose proof Hfind as (Hk & _)%list_find_Some.
  split.
  { exists (set_status Processing l). rewrite Hleads.
    split; [apply list_lookup_insert_eq; by eapply lookup_lt_Some|].
    split; [done|]. split; [apply mark_frame|done]. }
  split; [intros j Hj; rewrite Hleads; by apply list_lookup_insert_ne|].
  split; [done|]. split; [done|]. split; [done|].
  intros evs a2 Hrun Hquiet.
  assert (Hc1 : Consistent a1).
  { eapply step_consistent; [|exact Hstep]. by apply reachable_consistent. }
  assert (Hc2 : Consistent a2) by (by apply (run_consistent a1 evs a2)).
  assert (Hp2 : automation_timeout a now l ∈ timeouts a2)
    by (by apply (run_keeps_pending a1 evs a2)).
  split; [by apply pending_completes|].
  apply in_flight_contacts; [done|done|done|].
  apply (run_keeps_stored l a1 evs a2 Hrun).
  apply (step_keeps_stored l a now EvTick a1 Hstep).
  by apply (selected_is_stored a k l).
Qed.

Lemma tick_then_contacted_witness :
  (∃ l', leads (tick (rearm 10000 (at_time 10000 IndexSamples.app0))) !! 0%nat = Some l' ∧
         status l' = Processing ∧
         same_but_status IndexSamples.elena l' ∧
         last_contacted l' = last_contacted IndexSamples.elena) ∧
  (∀ j : nat, j ≠ 0%nat →
              leads (tick (rearm 10000 (at_time 10000 IndexSamples.app0))) !! j
              = leads IndexSamples.app0 !! j) ∧
  storage (tick (rearm 10000 (at_time 10000 IndexSamples.app0)))
  = storage IndexSamples.app0 ∧
  due (automation_timeout IndexSamples.app0 10000 IndexSamples.elena) = 10000 + 3000 ∧
  target (automation_timeout IndexSamples.app0 10000 IndexSamples.elena)
  = id IndexSamples.elena ∧
  ∀ evs a2,
    Run (tick (rearm 10000 (at_time 10000 IndexSamples.app0))) evs a2 →
    ¬ fires (handle (automation_timeout IndexSamples.app0 10000 IndexSamples.elena)) evs →
    completes (automation_timeout IndexSamples.app0 10000 IndexSamples.elena) a2 ∧
    contacts IndexSamples.elena
      (automation_timeout IndexSamples.app0 10000 IndexSamples.elena) a2.
Proof.
  apply (tick_then_contacted IndexSamples.app0 10000
           (tick (rearm 10000 (at_time 10000 IndexSamples.app0)))
           0%nat IndexSamples.elena).
  - apply ReachMounted. repeat split; reflexivity.
  - apply (StepTick IndexSamples.app0 10000 10000); [simpl; lia|reflexivity|lia].
  - reflexivity.
Defined.

(** C2, as stated, fails where two stored leads share an id.  Mounted on
    such a slot, a tick selects the second twin, the [New] one, and marks
    it; the timeout then runs [updateStatus] on the shared id, which assigns
    the first twin.  After the delay the selected lead is stored and shown
    [New], with [last_contacted] unset. *)
Lemma twin_id_timeout_misses_selected :
  Reachable app_twins ∧
  list_find (λ l, status l = New) (leads app_twins) = Some (1%nat, twin_new) ∧
  ∃ a1 a2,
    Step app_twins 10000 EvTick a1 ∧
    leads a1 = [twin_contacted; set_status Processing twin_new] ∧
    Step a1 13000 (EvTimeout (handle (automation_timeout app_twins 10000 twin_new))) a2 ∧
    getLeads (storage a2) = Ok (leads a2) ∧
    leads a2 = [set_last_contacted 13000 (set_status Contacted twin_contacted); twin_new] ∧
    status twin_new = New ∧
    last_contacted twin_new = None.
Proof.
  split; [apply ReachMounted; repeat split; reflexivity|].
  split; [reflexivity|]. do 2 eexists.
  split; [apply (StepTick app_twins 10000 10000); [simpl; lia|reflexivity|lia]|].
  split; [reflexivity|].
  split.
  { apply (StepTimeout _ 13000 (automation_timeout app_twins 10000 twin_new));
      [simpl; lia|simpl; left|simpl; lia|vm_compute; reflexivity]. }
  repeat split; vm_compute; reflexivity.
Qed.

(** C4 (amended).  Let a tick have selected the lead [l], and let the
    component run on without its timeout having run.  If automation is then
    switched off, the interval is cleared and the flag is off, and the
    timeout is still pending.  From there, as long as the switch is not used
    again, no tick runs, the interval stays cleared, and the timeout, until
    it runs, stays pending and can run once due; when it runs, the first
    stored lead carrying the id of [l] is [Contacted], and when exactly one
    stored lead carries that id, that lead is [l] itself, [Contacted]. *)
Theorem toggle_off_keeps_pending a now a1 (k : nat) l evs a2 now2 :
  Reachable a →
  Step a now EvTick a1 →
  list_find (λ l, status l = New) (leads a) = Some (k, l) →
  Run a1 evs a2 →
  ¬ fires (handle (automation_timeout a now l)) evs →
  isAutomating a2 = true →
  clock a2 ≤ now2 →
  Step a2 now2 EvToggle (toggle (at_time now2 a2)) ∧
  isAutomating (toggle (at_time now2 a2)) = false ∧
  interval (toggle (at_time now2 a2)) = None ∧
  completes (automation_timeout a now l) (toggle (at_time now2 a2)) ∧
  contacts l (automation_timeout a now l) (toggle (at_time now2 a2)) ∧
  ∀ evs' a3,
    Run (toggle (at_time now2 a2)) evs' a3 →
    ¬ toggles evs' →
    ¬ ticks evs' ∧
    interval a3 = None ∧
    (¬ fires (handle (automation_timeout a now l)) evs' →
     completes (automation_timeout a now l) a3 ∧
     contacts l (automation_timeout a now l) a3).
Proof.
  intros Hreach Hstep Hfind Hrun Hquiet Hon Hclock.
  destruct (tick_step a now a1 k l Hstep Hfind) as (_ & _ & Hpending).
  assert (Hc1 : Consistent a1).
  { eapply step_consistent; [|exact Hstep]. by apply reachable_consistent. }
  assert (Hc2 : Consistent a2) by (by apply (run_consistent a1 evs a2)).
  assert (Hp2 : automation_timeout a now l ∈ timeouts a2)
    by (by apply (run_keeps_pending a1 evs a2)).
  assert (Hs2 : stored_as l a2).
  { apply (run_keeps_stored l a1 evs a2 Hrun).
    apply (step_keeps_stored l a now EvTick a1 Hstep).
    by apply (selected_is_stored a k l). }
  assert (Hc3 : Consistent (toggle (at_time now2 a2)))
    by (by apply toggle_consistent, at_time_consistent).
  assert (Hoff : interval (toggle (at_time now2 a2)) = None) by (cbn; by rewrite Hon).
  split; [by apply StepToggle|].
  split; [cbn; by rewrite Hon|].
  split; [done|].
  split; [by apply pending_completes|].
  split; [by apply in_flight_contacts|].
  intros evs' a3 Hrun' Hnoswitch.
  destruct (run_while_off _ evs' a3 Hc3 Hoff Hrun' Hnoswitch) as [Hnoticks Hoff3].
  split; [done|]. split; [done|].
  intros Hquiet'.
  assert (Hc4 : Consistent a3)
    by (by apply (run_consistent (toggle (at_time now2 a2)) evs' a3)).
  assert (Hp4 : automation_timeout a now l ∈ timeouts a3)
    by (by apply (run_keeps_pending (toggle (at_time now2 a2)) evs' a3)).
  split; [by apply pending_completes|].
  apply in_flight_contacts; [done|done|done|].
  by apply (run_keeps_stored l (toggle (at_time now2 a2)) evs' a3 Hrun').
Qed.

Lemma toggle_off_keeps_pending_witness :
  Step (tick (rearm 10000 (at_time 10000 IndexSamples.app0))) 11000 EvToggle
    (toggle (at_time 11000 (tick (rearm 10000 (at_time 10000 IndexSamples.app0))))) ∧
  isAutomating
    (toggle (at_time 11000 (tick (rearm 10000 (at_time 10000 IndexSamples.app0)))))
  = false ∧
  interval
    (toggle (at_time 11000 (tick (rearm 10000 (at_time 10000 IndexSamples.app0)))))
  = None ∧
  completes (automation_timeout IndexSamples.app0 10000 IndexSamples.elena)
    (toggle (at_time 11000 (tick (rearm 10000 (at_time 10000 IndexSamples.app0))))) ∧
  contacts IndexSamples.elena
    (automation_timeout IndexSamples.app0 10000 IndexSamples.elena)
    (toggle (at_time 11000 (tick (rearm 10000 (at_time 10000 IndexSamples.app0))))) ∧
  ∀ evs' a3,
    Run (toggle (at_time 11000 (tick (rearm 10000 (at_time 10000 IndexSamples.app0)))))
      evs' a3 →
    ¬ toggles evs' →
    ¬ ticks evs' ∧
    interval a3 = None ∧
    (¬ fires (handle (automation_timeout IndexSamples.app0 10000 IndexSamples.elena))
       evs' →
     completes (automation_timeout IndexSamples.app0 10000 IndexSamples.elena) a3 ∧
     contacts IndexSamples.elena
       (automation_timeout IndexSamples.app0 10000 IndexSamples.elena) a3).
Proof.
  apply (toggle_off_keeps_pending IndexSamples.app0 10000
           (tick (rearm 10000 (at_time 10000 IndexSamples.app0)))
           0%nat IndexSamples.elena []
           (tick (rearm 10000 (at_time 10000 IndexSamples.app0))) 11000).
  - apply ReachMounted. repeat split; reflexivity.
  - apply (StepTick IndexSamples.app0 10000 10000); [simpl; lia|reflexivity|lia].
  - reflexivity.
  - apply RunNil.
  - intros [n Hn]. inversion Hn.
  - reflexivity.
  - simpl. lia.
Defined.

(** C4, as stated, fails where two stored leads share an id.  The tick
    marks the second twin, automation is switched off, and the timeout,
    which was not cancelled, runs: it assigns the first twin.  The lead that
    was in flight is stored and shown [New]. *)
Lemma twin_id_toggle_off_misses_selected :
  Reachable app_twins ∧
  list_find (λ l, status l = New) (leads app_twins) = Some (1%nat, twin_new) ∧
  ∃ a1 a2 a3,
    Step app_twins 10000 EvTick a1 ∧
    leads a1 = [twin_contacted; set_status Processing twin_new] ∧
    Step a1 11000 EvToggle a2 ∧
    isAutomating a2 = false ∧
    interval a2 = None ∧
    Step a2 13000 (EvTimeout (handle (automation_timeout app_twins 10000 twin_new))) a3 ∧
    getLeads (storage a3) = Ok (leads a3) ∧
    leads a3 = [set_last_contacted 13000 (set_status Contacted twin_contacted); twin_new] ∧
    status twin_new = New ∧
    last_contacted twin_new = None.
Proof.
  split; [apply ReachMounted; repeat split; reflexivity|].
  split; [reflexivity|]. do 3 eexists.
  split; [apply (StepTick app_twins 10000 10000); [simpl; lia|reflexivity|lia]|].
  split; [reflexivity|].
  split; [apply StepToggle; simpl; lia|].
  split; [reflexivity|]. split; [reflexivity|].
  split.
  { apply (StepTimeout _ 13000 (automation_timeout app_twins 10000 twin_new));
      [simpl; lia|simpl; left|simpl; lia|vm_compute; reflexivity]. }
  repeat split; vm_compute; reflexivity.
Qed.

End InFlightClaims.

(** ** What runs leave in the store *)

Section StoredIds.
Import Index Index.MockBackend IndexApp InFlight.
Implicit Types (ls : gmap string (Text Lead)) (db : list Lead) (l d : Lead).
Implicit Types (a b : App) (t : Timeout) (evs : list (Instant * Event)).

Lemma captured_cons (now : Instant) (ev : Event) evs :
  captured ((now, ev) :: evs) = captured evs ++ captured [(now, ev)].
Proof. destruct ev; cbn; by rewrite ?app_nil_r. Qed.

(** One callback stores the ids there were, in their order, behind the id
    of the lead it captured, if it is a capture. *)
Lemma step_adds_ids a now ev a' db :
  Step a now ev a' →
  getLeads (storage a) = Ok db →
  ∃ db', getLeads (storage a') = Ok db' ∧
         id <$> db' = captured [(now, ev)] ++ (id <$> db).
Proof.
  intros Hstep Hget.
  destruct Hstep as [d0 _ Hint _|t b _ Ht _ Hfire|i s b _ Hrun|leadData rnd b _ Hrun|_].
  - exists db. by rewrite tick_storage.
  - destruct (onTimeout_spec (target t) (consume (handle t) (at_time now a)) db Hget)
      as (a' & Hrun & _ & _ & _ & _ & _ & Hcases).
    rewrite Hrun in Hfire. injection Hfire as <-.
    destruct Hcases as [(k & l & Hfind & Hget' & _)|(_ & Hstorage & _)].
    + apply list_find_Some in Hfind as (Hk & _).
      exists (<[k := touch Contacted now l]> db). split; [done|]. cbn. by rewrite touch_ids.
    + exists db. by rewrite Hstorage.
  - destruct (handleUpdateStatus_spec i s (at_time now a) db Hget)
      as (a' & db' & Hrun' & _ & _ & _ & _ & _ & Hget' & _ & Hids).
    rewrite Hrun' in Hrun. injection Hrun as <-. by exists db'.
  - destruct (onCapture_spec leadData rnd (at_time now a) db Hget)
      as (a' & Hrun' & _ & _ & _ & _ & _ & Hget' & _).
    rewrite Hrun' in Hrun. injection Hrun as <-.
    by exists (newLead leadData rnd now :: db).
  - by exists db.
Qed.

(** Nothing in [index.tsx] removes a stored lead: however the component
    runs, the ids stored afterwards are the ids of the leads the captures of
    the run stored, the last capture first, followed by the ids stored
    before, in their order; the stored collection has grown by the number of
    those captures. *)
Theorem stored_ids_only_grow a evs a' db :
  getLeads (storage a) = Ok db →
  Run a evs a' →
  ∃ db',
    getLeads (storage a') = Ok db' ∧
    id <$> db' = captured evs ++ (id <$> db) ∧
    length db' = (length (captured evs) + length db)%nat.
Proof.
  intros Hget Hrun.
  assert (Hids : ∃ db', getLeads (storage a') = Ok db' ∧
                        id <$> db' = captured evs ++ (id <$> db)).
  { revert db Hget. induction Hrun as [a|a now ev a1 evs a2 Hstep _ IH]; intros db Hget.
    - by exists db.
    - destruct (step_adds_ids a now ev a1 db Hstep Hget) as (db1 & Hget1 & Hids1).
      destruct (IH db1 Hget1) as (db2 & Hget2 & Hids2).
      exists db2. split; [done|].
      by rewrite Hids2, (captured_cons now ev evs), Hids1, <- app_assoc. }
  destruct Hids as (db' & Hget' & Hids). exists db'. split; [done|]. split; [done|].
  apply (f_equal length) in Hids. by rewrite length_app, !length_fmap in Hids.
Qed.

Lemma stored_ids_only_grow_witness :
  ∃ a' db',
    Run IndexSamples.app0 busy_run a' ∧
    getLeads (storage a') = Ok db' ∧
    id <$> db' = captured busy_run ++ (id <$> [IndexSamples.elena; IndexSamples.mark]) ∧
    length db'
    = (length (captured busy_run) + length [IndexSamples.elena; IndexSamples.mark])%nat.
Proof.
  assert (Hrun : ∃ a', Run IndexSamples.app0 busy_run a').
  { eexists. eapply RunCons.
    { apply (StepTick IndexSamples.app0 10000 10000); [simpl; lia|reflexivity|lia]. }
    eapply RunCons; [apply StepCapture; [simpl; lia|vm_compute; reflexivity]|].
    eapply RunCons; [apply StepUpdateStatus; [simpl; lia|vm_compute; reflexivity]|].
    eapply RunCons; [|apply RunNil].
    apply (StepTimeout _ 13000 {| handle := 0; due := 13000; target := "e1e9n4a2r" |});
      [simpl; lia|simpl; left|simpl; lia|vm_compute; reflexivity]. }
  destruct Hrun as [a' Hrun]. exists a'.
  destruct (stored_ids_only_grow IndexSamples.app0 busy_run a'
              [IndexSamples.elena; IndexSamples.mark] eq_refl Hrun)
    as (db' & Hget & Hids & Hlen).
  exists db'. by repeat split.
Defined.

(** What the sample run stores: the captured lead in front, the first seed
    lead [Contacted] by its timeout, the second [Converted] by the button. *)
Example busy_run_stores :
  ∃ a', Run IndexSamples.app0 busy_run a' ∧
        id <$> leads a' = ["q7w1e5r9t"; "e1e9n4a2r"; "m4r7k0g5u"] ∧
        status <$> leads a' = [New; Contacted; Converted] ∧
        getLeads (storage a') = Ok (leads a').
Proof.
  eexists. split.
  - eapply RunCons.
    { apply (StepTick IndexSamples.app0 10000 10000); [simpl; lia|reflexivity|lia]. }
    eapply RunCons; [apply StepCapture; [simpl; lia|vm_compute; reflexivity]|].
    eapply RunCons; [apply StepUpdateStatus; [simpl; lia|vm_compute; reflexivity]|].
    eapply RunCons; [|apply RunNil].
    apply (StepTimeout _ 13000 {| handle := 0; due := 13000; target := "e1e9n4a2r" |});
      [simpl; lia|simpl; left|simpl; lia|vm_compute; reflexivity].
  - repeat split; vm_compute; reflexivity.
Qed.

(** The state a tick leaves is one the component can be in, and one where
    what is shown and what is stored differ by a mark. *)
Lemma shown_is_stored_but_for_marks_witness :
  ∃ db,
    getLeads (storage (tick (rearm 10000 (at_time 10000 IndexSamples.app0)))) = Ok db ∧
    Forall2 shown_as (leads (tick (rearm 10000 (at_time 10000 IndexSamples.app0)))) db ∧
    length (leads (tick (rearm 10000 (at_time 10000 IndexSamples.app0)))) = length db ∧
    id <$> leads (tick (rearm 10000 (at_time 10000 IndexSamples.app0))) = id <$> db.
Proof.
  apply (shown_is_stored_but_for_marks
           (tick (rearm 10000 (at_time 10000 IndexSamples.app0)))).
  apply (ReachStep IndexSamples.app0 10000 EvTick).
  - apply ReachMounted. repeat split; reflexivity.
  - apply (StepTick IndexSamples.app0 10000 10000); [simpl; lia|reflexivity|lia].
Defined.

(** In that state the first lead is shown [Processing] and stored [New]. *)
Example marked_not_stored :
  status <$> leads (tick (rearm 10000 (at_time 10000 IndexSamples.app0)))
  = [Processing; New] ∧
  (getLeads (storage (tick (rearm 10000 (at_time 10000 IndexSamples.app0))))
   ≫= λ db, Ok (status <$> db)) = Ok [New; New].
Proof. split; reflexivity. Qed.

End StoredIds.
